(** * Heading rewriter: [public/replace-query-params.js]

    The script replaces the text of every [h4.api-section-heading-title]
    heading whose trimmed text is "Query Parameters" by "Parameters", and
    re-runs that pass from load events, five timers and a mutation
    observer.

    The development has four layers:
    - JavaScript values: strings as sequences of UTF-16 code units,
      [String.prototype.trim], completions for [try]/[catch];
    - the pass [replaceQueryParameters], written once against the part of
      the DOM interface the script calls ([Host]);
    - the DOM tree of a no-quirks HTML document ([document]), which
      implements that interface, and a scripted host ([stub]) for what a
      browser never answers;
    - the page with its listeners, timers and observers ([page]), the
      statements of the script ([script]) and the turns of the event
      loop ([step]).

    Definitions come first, properties after. *)

From Stdlib Require Import List String Ascii NArith Arith Bool Lia Permutation.
Import ListNotations.
Local Open Scope list_scope.

(* ================================================================= *)
(** ** JavaScript strings *)

(** A string value is a sequence of 16-bit code units. *)
Definition code_unit := N.
Definition jsstring := list code_unit.

(** A literal of the source (ASCII only). *)
Definition str (s : string) : jsstring :=
  map N_of_ascii (list_ascii_of_string s).

(** [===] on two strings: same code units. *)
Fixpoint jsstring_eqb (a b : jsstring) : bool :=
  match a, b with
  | [], [] => true
  | x :: a', y :: b' => N.eqb x y && jsstring_eqb a' b'
  | _, _ => false
  end.

(** ECMAScript WhiteSpace and LineTerminator code points, the ones
    [trim] strips: TAB, LF, VT, FF, CR, SP, NBSP, the Zs category, LS,
    PS and ZWNBSP. All of them are single code units. *)
Definition is_white_space (c : code_unit) : bool :=
  (N.leb 9 c && N.leb c 13)
  || N.eqb c 32 || N.eqb c 160 || N.eqb c 5760
  || (N.leb 8192 c && N.leb c 8202)
  || N.eqb c 8232 || N.eqb c 8233 || N.eqb c 8239 || N.eqb c 8287
  || N.eqb c 12288 || N.eqb c 65279.

Fixpoint trimStart (s : jsstring) : jsstring :=
  match s with
  | [] => []
  | c :: r => if is_white_space c then trimStart r else s
  end.

Definition trimEnd (s : jsstring) : jsstring := rev (trimStart (rev s)).

(** [s.trim()] *)
Definition trim (s : jsstring) : jsstring := trimEnd (trimStart s).

(* ================================================================= *)
(** ** Values the pass handles *)

(** An entry of the node list the callback receives: [null],
    [undefined] or a reference to a node object. *)
Inductive jsref :=
| RNull
| RUndefined
| RNode (n : nat).

(** What reading [textContent] gives: the attribute is a nullable
    string, and [undefined] on an object that has no such property. *)
Inductive textval :=
| VNull
| VUndefined
| VString (s : jsstring).

(** ToBoolean *)
Definition truthy_ref (r : jsref) : bool :=
  match r with RNode _ => true | _ => false end.

Definition truthy_text (v : textval) : bool :=
  match v with
  | VString [] => false
  | VString _ => true
  | _ => false
  end.

(** A thrown value, by its name. *)
Definition exn := string.

(** Arguments of a console call, and the records of the console. *)
Inductive logarg :=
| AStr (s : string)
| ANum (n : nat)
| AExn (e : exn).

Inductive level := LevelLog | LevelError.

Record entry := { entry_level : level; entry_args : list logarg }.

(* ================================================================= *)
(** ** Completions: state passing with exceptions *)

Inductive completion (A : Type) :=
| Normal (a : A)
| Throw (e : exn).
Arguments Normal {A} a.
Arguments Throw {A} e.

Definition M (S A : Type) := S -> completion A * S.

Definition ret {S A} (a : A) : M S A := fun s => (Normal a, s).

Definition throw {S A} (e : exn) : M S A := fun s => (Throw e, s).

Definition bind {S A B} (m : M S A) (k : A -> M S B) : M S B :=
  fun s =>
    match m s with
    | (Normal a, s') => k a s'
    | (Throw e, s') => (Throw e, s')
    end.

(** [try { body } catch (e) { handler }] *)
Definition try_catch {S A} (body : M S A) (handler : exn -> M S A) : M S A :=
  fun s =>
    match body s with
    | (Normal a, s') => (Normal a, s')
    | (Throw e, s') => handler e s'
    end.

Declare Scope js_scope.
Delimit Scope js_scope with js.
Notation "x <- m ;; k" := (bind m (fun x => k))
  (at level 61, m at next level, right associativity) : js_scope.
Notation "m ;; k" := (bind m (fun _ => k))
  (at level 61, right associativity) : js_scope.

(** [list.forEach(callback)] on a static node list, where the callback
    updates a variable of the enclosing function: the variable is
    carried through the calls. A throwing call ends the iteration. *)
Fixpoint forEach {S A} (l : list jsref) (callback : jsref -> A -> M S A)
  (acc : A) : M S A :=
  match l with
  | [] => ret acc
  | x :: r => bind (callback x acc) (fun acc' => forEach r callback acc')
  end.

(* ================================================================= *)
(** ** The DOM interface the script calls *)

Class Host (D : Type) := {
  (** [document.readyState] *)
  host_readyState : D -> string;
  (** [document.body] *)
  host_body : D -> jsref;
  (** [document.querySelectorAll(selector)]: a static node list, or an
      exception. *)
  host_querySelectorAll : string -> D -> completion (list jsref);
  (** [node.textContent] *)
  host_textContent : nat -> D -> textval;
  (** [node.textContent = value]: the new state, and whether the
      assignment threw. *)
  host_set_textContent : nat -> jsstring -> D -> completion unit * D
}.

Section Pass.
Context {D : Type} `{Host D}.

(** What a pass reads and writes: the document and the console. *)
Record world := { dom : D; console : list entry }.

Definition querySelectorAll (selector : string) : M world (list jsref) :=
  fun w => (host_querySelectorAll selector (dom w), w).

Definition textContent (n : nat) : M world textval :=
  fun w => (Normal (host_textContent n (dom w)), w).

Definition set_textContent (n : nat) (value : jsstring) : M world unit :=
  fun w =>
    let (c, d) := host_set_textContent n value (dom w) in
    (c, {| dom := d; console := console w |}).

Definition console_emit (l : level) (args : list logarg) : M world unit :=
  fun w =>
    (Normal tt,
     {| dom := dom w;
        console := console w ++ [{| entry_level := l; entry_args := args |}] |}).

Definition console_log := console_emit LevelLog.
Definition console_error := console_emit LevelError.

Local Open Scope js_scope.

(** Lines 10-15, the function given to [forEach]:
[[
  if (heading && heading.textContent
      && heading.textContent.trim() === 'Query Parameters') {
      heading.textContent = 'Parameters';
      replaced++;
  }
]]
    [textContent] is read twice, as in the source; [trim] exists on
    strings only. The counter [replaced] is a count of list entries, a
    natural number. *)
Definition callback (heading : jsref) (replaced : nat) : M world nat :=
  match heading with
  | RNode n =>
      t <- textContent n ;;
      if truthy_text t then
        t' <- textContent n ;;
        match t' with
        | VString s =>
            if jsstring_eqb (trim s) (str "Query Parameters") then
              set_textContent n (str "Parameters") ;;
              ret (S replaced)
            else ret replaced
        | _ => throw "TypeError"%string
        end
      else ret replaced
  | _ => ret replaced
  end.

(** What one call of the callback on a node does, in one equation
    ([callback_visit]). *)
Definition visit (n : nat) (replaced : nat) (w : world)
  : completion nat * world :=
  match host_textContent n (dom w) with
  | VString s =>
      if jsstring_eqb (trim s) (str "Query Parameters") then
        match host_set_textContent n (str "Parameters") (dom w) with
        | (Normal _, d) => (Normal (S replaced), {| dom := d; console := console w |})
        | (Throw e, d) => (Throw e, {| dom := d; console := console w |})
        end
      else (Normal replaced, w)
  | _ => (Normal replaced, w)
  end.

(** Lines 7-17, the body of the [try]. *)
Definition scan_and_replace : M world unit :=
  headings <- querySelectorAll "h4.api-section-heading-title" ;;
  replaced <- forEach headings callback 0 ;;
  console_log [AStr "Replaced"; ANum replaced; AStr "Query Parameters headings"].

(** Lines 5-21. *)
Definition replaceQueryParameters : M world unit :=
  try_catch scan_and_replace
    (fun e => console_error [AStr "Error replacing Query Parameters:"; AExn e]).

(** The two records a pass can leave on the console. *)
Definition count_record (replaced : nat) : entry :=
  {| entry_level := LevelLog;
     entry_args :=
       [AStr "Replaced"; ANum replaced; AStr "Query Parameters headings"] |}.

Definition error_record (e : exn) : entry :=
  {| entry_level := LevelError;
     entry_args := [AStr "Error replacing Query Parameters:"; AExn e] |}.

(** A node-list entry with nothing to trim: no node, or a node whose
    text content is [null], [undefined] or empty. *)
Definition degenerate (h : jsref) (d : D) : Prop :=
  h = RNull \/ h = RUndefined
  \/ exists n, h = RNode n
       /\ (host_textContent n d = VNull
           \/ host_textContent n d = VUndefined
           \/ host_textContent n d = VString []).

(** The world a pass leaves. *)
Definition pass_result (w : world) : world := snd (replaceQueryParameters w).

End Pass.
Arguments world D : clear implicits.

(* ================================================================= *)
(** ** The document tree *)

(** Elements are objects: the node list of a pass holds references to
    them, so each carries the identity [id] it is referred to by. Text
    and comment nodes are never referred to. *)
#[warnings="-register-all"]
Inductive node :=
| Text (data : jsstring)
| Comment (data : jsstring)
| Element (id : nat) (localName : string) (classList : list string)
    (childNodes : list node).

(** Induction on a node with the property at hand for all its children. *)
Section NodeInduction.
Variable P : node -> Prop.
Hypothesis P_text : forall s, P (Text s).
Hypothesis P_comment : forall s, P (Comment s).
Hypothesis P_element :
  forall i name cls ch, Forall P ch -> P (Element i name cls ch).

Fixpoint node_forall_ind (t : node) : P t :=
  match t with
  | Text s => P_text s
  | Comment s => P_comment s
  | Element i name cls ch =>
      P_element i name cls ch
        ((fix all (l : list node) : Forall P l :=
            match l with
            | [] => Forall_nil P
            | c :: r => Forall_cons c (node_forall_ind c) (all r)
            end) ch)
  end.

End NodeInduction.

(** What a node adds to the text content of an element above it: the
    data of its text descendants in tree order. *)
Fixpoint descendant_text (t : node) : jsstring :=
  match t with
  | Text s => s
  | Comment _ => []
  | Element _ _ _ ch => flat_map descendant_text ch
  end.

(** Identities of the elements of a subtree, in tree order. *)
Fixpoint ids (t : node) : list nat :=
  match t with
  | Element i _ _ ch => i :: flat_map ids ch
  | _ => []
  end.

(** The element with identity [n] in a subtree. *)
Fixpoint find_node (n : nat) (t : node) : option node :=
  match t with
  | Element i _ _ ch =>
      if Nat.eqb i n then Some t
      else
        (fix first (l : list node) : option node :=
           match l with
           | [] => None
           | c :: r =>
               match find_node n c with
               | Some u => Some u
               | None => first r
               end
           end) ch
  | _ => None
  end.

Fixpoint find_in (n : nat) (f : list node) : option node :=
  match f with
  | [] => None
  | c :: r =>
      match find_node n c with
      | Some u => Some u
      | None => find_in n r
      end
  end.

(** The subtree with the children of element [n] replaced. *)
Fixpoint replace_children (n : nat) (new : list node) (t : node) : node :=
  match t with
  | Element i name cls ch =>
      if Nat.eqb i n then Element i name cls new
      else Element i name cls (map (replace_children n new) ch)
  | _ => t
  end.

(** *** Selectors *)

(** The selectors handled are a type selector followed by class
    selectors, as [h4.api-section-heading-title]; anything else is
    reported the way an invalid selector is. *)
Record compound := { sel_type : string; sel_classes : list string }.

Fixpoint split_on (sep : ascii) (s : string) : list string :=
  match s with
  | EmptyString => [EmptyString]
  | String c r =>
      if Ascii.eqb c sep then EmptyString :: split_on sep r
      else
        match split_on sep r with
        | p :: q => String c p :: q
        | [] => [String c EmptyString]
        end
  end.

Definition ident_char (c : ascii) : bool :=
  let k := nat_of_ascii c in
  (Nat.leb 97 k && Nat.leb k 122) || (Nat.leb 65 k && Nat.leb k 90)
  || (Nat.leb 48 k && Nat.leb k 57) || Nat.eqb k 45 || Nat.eqb k 95.

Definition is_ident (s : string) : bool :=
  match s with
  | EmptyString => false
  | _ => forallb ident_char (list_ascii_of_string s)
  end.

Definition parse_selector (s : string) : option compound :=
  match split_on "."%char s with
  | ty :: cls =>
      if is_ident ty && forallb is_ident cls
      then Some {| sel_type := ty; sel_classes := cls |}
      else None
  | [] => None
  end.

Definition has_class (k : string) (classes : list string) : bool :=
  existsb (String.eqb k) classes.

Definition matches (c : compound) (t : node) : bool :=
  match t with
  | Element _ name classes _ =>
      String.eqb name (sel_type c)
      && forallb (fun k => has_class k classes) (sel_classes c)
  | _ => false
  end.

(** Matching elements of a subtree, in tree order. *)
Fixpoint select (c : compound) (t : node) : list nat :=
  match t with
  | Element i _ _ ch =>
      (if matches c t then [i] else []) ++ flat_map (select c) ch
  | _ => []
  end.

(** *** The document *)

(** [doc_children] is the tree under the document node. [detached]
    holds the subtrees that were removed from their parent: they are
    out of the document and still alive, as long as a node list refers
    to them. *)
Record document := {
  doc_readyState : string;
  doc_children : list node;
  detached : list node
}.

Definition objects (d : document) : list node :=
  doc_children d ++ detached d.

(** Dereference. *)
Definition lookup (n : nat) (d : document) : option node :=
  find_in n (objects d).

(** [element.textContent]. A reference that names no live element
    reads [undefined]; selection never hands one out. *)
Definition dom_textContent (n : nat) (d : document) : textval :=
  match lookup n d with
  | Some (Element _ _ _ ch) => VString (flat_map descendant_text ch)
  | _ => VUndefined
  end.

(** [element.textContent = value]: all children are removed, and a
    text node holding [value] is inserted unless [value] is empty. The
    removed children stay alive among the [detached] subtrees. *)
Definition text_children (value : jsstring) : list node :=
  match value with
  | [] => []
  | _ => [Text value]
  end.

Definition dom_set_textContent (n : nat) (value : jsstring) (d : document)
  : completion unit * document :=
  match lookup n d with
  | Some (Element _ _ _ old) =>
      let new := text_children value in
      (Normal tt,
       {| doc_readyState := doc_readyState d;
          doc_children := map (replace_children n new) (doc_children d);
          detached := map (replace_children n new) (detached d) ++ old |})
  | _ => (Normal tt, d)
  end.

(** [document.querySelectorAll(selector)] *)
Definition dom_querySelectorAll (selector : string) (d : document)
  : completion (list jsref) :=
  match parse_selector selector with
  | Some c => Normal (map RNode (flat_map (select c) (doc_children d)))
  | None => Throw "SyntaxError"%string
  end.

Definition first_element (p : string -> bool) (l : list node) : option node :=
  find (fun t => match t with Element _ name _ _ => p name | _ => false end) l.

(** [document.body]: the first [body] or [frameset] child of the
    [html] document element. *)
Definition dom_body (d : document) : jsref :=
  match first_element (fun _ => true) (doc_children d) with
  | Some (Element _ name _ ch) =>
      if String.eqb name "html" then
        match first_element
                (fun k => String.eqb k "body" || String.eqb k "frameset") ch with
        | Some (Element b _ _ _) => RNode b
        | _ => RNull
        end
      else RNull
  | _ => RNull
  end.

#[export] Instance document_Host : Host document := {
  host_readyState := doc_readyState;
  host_body := dom_body;
  host_querySelectorAll := dom_querySelectorAll;
  host_textContent := dom_textContent;
  host_set_textContent := dom_set_textContent
}.

(** Every live element has one identity. *)
Definition well_formed (d : document) : Prop :=
  NoDup (flat_map ids (objects d)).

(** The selector of the script, and its target. *)
Definition heading_selector : compound :=
  {| sel_type := "h4"; sel_classes := ["api-section-heading-title"%string] |}.

Definition headings_of (d : document) : list nat :=
  flat_map (select heading_selector) (doc_children d).

Definition node_text (t : node) : jsstring :=
  match t with
  | Element _ _ _ ch => flat_map descendant_text ch
  | _ => []
  end.

(** The test of the callback on the text of an element. *)
Definition has_phrase (t : node) : bool :=
  jsstring_eqb (trim (node_text t)) (str "Query Parameters").

Definition phrase_at (d : document) (n : nat) : bool :=
  match lookup n d with
  | Some t => has_phrase t
  | None => false
  end.

(** A heading the pass rewrites: it matches the selector and its text
    trims to the phrase. *)
Definition is_target (t : node) : bool :=
  matches heading_selector t && has_phrase t.

(** The document after [n.textContent = value]. *)
Definition assign (n : nat) (value : jsstring) (d : document) : document :=
  snd (dom_set_textContent n value d).

(** *** Documents used as examples *)

Definition h4_title (i : nat) (ch : list node) : node :=
  Element i "h4" ["api-section-heading-title"%string] ch.

Definition page_of (body : list node) : document :=
  {| doc_readyState := "complete";
     doc_children := [Element 0 "html" [] [Element 1 "body" [] body]];
     detached := [] |}.

(** Three headings side by side. *)
Definition three_headings : document :=
  page_of [h4_title 2 [Text (str "Query Parameters")];
           h4_title 3 [Text (str "Responses")];
           h4_title 4 [Text (str "Query Parameters")]].

(** A heading inside a heading:
[[
  <h4 class="api-section-heading-title">Query <span>
    <h4 class="api-section-heading-title">Query Parameters</h4></span></h4>
]] *)
Definition nested_headings : document :=
  page_of
    [h4_title 2
       [Text (str "Query ");
        Element 3 "span" [] [h4_title 4 [Text (str "Query Parameters")]]]].

(** Headings whose text is near the phrase, and elements that are not
    selected and hold the phrase. *)
Definition near_misses : document :=
  page_of [h4_title 2 [Text (str "Query Parameters ")];
           h4_title 3 [Text (str "Query Parameters List")];
           Element 4 "h3" ["api-section-heading-title"%string]
             [Text (str "Query Parameters")];
           Element 5 "h4" ["title"%string] [Text (str "Query Parameters")];
           h4_title 6 []].

Definition on_load (d : document) : world document :=
  {| dom := d; console := [] |}.

(** *** Notions the proofs about the tree use *)

(** Where an element [m] other than [n] is after the children of [n]
    were replaced by [new]: among the removed children if it was below
    [n], and in place otherwise. *)
Definition relocated (find : nat -> option node) (find' : nat -> option node)
  (n : nat) (new : list node) : Prop :=
  forall name cls old m u,
    find n = Some (Element n name cls old) ->
    m <> n ->
    find m = Some u ->
    (In m (flat_map ids old) -> find' m = None /\ find_in m old = Some u)
    /\ (~ In m (flat_map ids old) -> find' m = Some (replace_children n new u)).

Definition relocated_tree (n : nat) (new : list node) (t : node) : Prop :=
  NoDup (ids t) ->
  relocated (fun m => find_node m t)
    (fun m => find_node m (replace_children n new t)) n new.

Definition relocated_forest (n : nat) (new : list node) (f : list node) : Prop :=
  NoDup (flat_map ids f) ->
  relocated (fun m => find_in m f)
    (fun m => find_in m (map (replace_children n new) f)) n new.

(** The identities of a list are in tree order for a lookup when no
    entry lies in the subtree of a later one. *)
Fixpoint tree_ordered (find : nat -> option node) (l : list nat) : Prop :=
  match l with
  | [] => True
  | n :: post =>
      (forall m u, In m post -> find m = Some u -> ~ In n (ids u))
      /\ tree_ordered find post
  end.

(** What an element is by itself: its name, its classes and its list
    of children, each child cut below its root. Text content is not
    part of it, as it is read off the descendants. *)
Definition cut (t : node) : node :=
  match t with
  | Element i name cls _ => Element i name cls []
  | _ => t
  end.

Definition own_state (t : node) : node :=
  match t with
  | Element i name cls ch => Element i name cls (map cut ch)
  | _ => t
  end.

(** No selected heading lies inside another one. *)
Definition no_nested_headings (d : document) : Prop :=
  forall n u m,
    In n (headings_of d) -> lookup n d = Some u ->
    In m (headings_of d) -> In m (ids u) -> m = n.

(** What a run of the callback over the list [l] leaves of [d]: every
    listed element that had the phrase holds the new text alone, every
    element with no such element in its subtree is as it was, every
    other element keeps its own state, no heading appears in the
    document, and none leaves it unless it was inside a listed element
    that had the phrase. *)
Definition rewritten (l : list nat) (d d' : document) : Prop :=
  well_formed d'
  /\ (forall n name cls old,
        In n l -> lookup n d = Some (Element n name cls old) ->
        phrase_at d n = true ->
        lookup n d' = Some (Element n name cls [Text (str "Parameters")]))
  /\ (forall m u,
        lookup m d = Some u ->
        (forall n, In n l -> phrase_at d n = true -> ~ In n (ids u)) ->
        lookup m d' = Some u)
  /\ (forall m u,
        lookup m d = Some u ->
        ~ (In m l /\ phrase_at d m = true) ->
        exists u', lookup m d' = Some u' /\ own_state u' = own_state u)
  /\ (forall m, lookup m d = None -> lookup m d' = None)
  /\ incl (headings_of d') (headings_of d)
  /\ ((forall n name cls old,
         In n l -> phrase_at d n = true ->
         lookup n d = Some (Element n name cls old) ->
         flat_map (select heading_selector) old = []) ->
      headings_of d' = headings_of d)
  /\ doc_readyState d' = doc_readyState d.

(* ================================================================= *)
(** ** The page: listeners, timers and observers *)

(** The three functions the script hands to the host. *)
Inductive handler :=
| HReplaceQueryParameters  (* [replaceQueryParameters] itself *)
| HObserverCallback        (* [function() { replaceQueryParameters(); }], line 39 *)
| HObserveWhenBody.        (* the function given to [setTimeout] at line 49 *)

Inductive event_target := TDocument | TWindow.

Record listener := {
  listener_target : event_target;
  listener_type : string;
  listener_handler : handler
}.

(** A pending [setTimeout]: it runs its handler once. *)
Record timer := {
  timer_id : nat;
  timer_delay : nat;
  timer_handler : handler
}.

(** [observer.observe(target, { childList, subtree })] *)
Record observation := {
  obs_callback : handler;
  obs_target : nat;
  obs_childList : bool;
  obs_subtree : bool
}.

Section Page.
Context {D : Type} `{Host D}.

Record page := {
  page_world : world D;
  (** [typeof MutationObserver !== 'undefined'] *)
  has_MutationObserver : bool;
  listeners : list listener;
  timers : list timer;
  next_timer : nat;
  observations : list observation
}.

Definition with_world (w : world D) (p : page) : page :=
  {| page_world := w;
     has_MutationObserver := has_MutationObserver p;
     listeners := listeners p;
     timers := timers p;
     next_timer := next_timer p;
     observations := observations p |}.

(** A call of [replaceQueryParameters()] as a statement. *)
Definition call_replaceQueryParameters (p : page) : page :=
  with_world (snd (replaceQueryParameters (page_world p))) p.

Definition addEventListener (t : event_target) (type : string) (h : handler)
  (p : page) : page :=
  {| page_world := page_world p;
     has_MutationObserver := has_MutationObserver p;
     listeners :=
       listeners p
       ++ [{| listener_target := t; listener_type := type; listener_handler := h |}];
     timers := timers p;
     next_timer := next_timer p;
     observations := observations p |}.

Definition setTimeout (h : handler) (delay : nat) (p : page) : page :=
  {| page_world := page_world p;
     has_MutationObserver := has_MutationObserver p;
     listeners := listeners p;
     timers :=
       timers p
       ++ [{| timer_id := next_timer p; timer_delay := delay; timer_handler := h |}];
     next_timer := S (next_timer p);
     observations := observations p |}.

Definition observe (callback : handler) (target : nat) (p : page) : page :=
  {| page_world := page_world p;
     has_MutationObserver := has_MutationObserver p;
     listeners := listeners p;
     timers := timers p;
     next_timer := next_timer p;
     observations :=
       observations p
       ++ [{| obs_callback := callback; obs_target := target;
              obs_childList := true; obs_subtree := true |}] |}.

(** Lines 50-55. *)
Definition observe_when_body (p : page) : page :=
  match host_body (dom (page_world p)) with
  | RNode b => observe HObserverCallback b p
  | _ => p
  end.

Definition run_handler (h : handler) (p : page) : page :=
  match h with
  | HReplaceQueryParameters => call_replaceQueryParameters p
  | HObserverCallback => call_replaceQueryParameters p
  | HObserveWhenBody => observe_when_body p
  end.

(** The handlers whose body is a call of the pass. *)
Definition invokes_pass (h : handler) : bool :=
  match h with
  | HReplaceQueryParameters | HObserverCallback => true
  | HObserveWhenBody => false
  end.

(** Lines 24-58, the statements of the script after the function
    declaration. *)
Definition script (p : page) : page :=
  let p :=
    if String.eqb (host_readyState (dom (page_world p))) "loading"
    then addEventListener TDocument "DOMContentLoaded" HReplaceQueryParameters p
    else call_replaceQueryParameters p in
  let p := addEventListener TWindow "load" HReplaceQueryParameters p in
  let p := setTimeout HReplaceQueryParameters 100 p in
  let p := setTimeout HReplaceQueryParameters 300 p in
  let p := setTimeout HReplaceQueryParameters 500 p in
  let p := setTimeout HReplaceQueryParameters 1000 p in
  let p := setTimeout HReplaceQueryParameters 2000 p in
  if has_MutationObserver p then
    match host_body (dom (page_world p)) with
    | RNode b => observe HObserverCallback b p
    | _ => setTimeout HObserveWhenBody 100 p
    end
  else p.

(** The page a script starts in: nothing registered yet. *)
Definition fresh_page (w : world D) (mo : bool) : page :=
  {| page_world := w; has_MutationObserver := mo; listeners := [];
     timers := []; next_timer := 0; observations := [] |}.

Definition loaded (w : world D) (mo : bool) : page := script (fresh_page w mo).

(** The registrations of the script, by what they are. *)
Definition DOMContentLoaded_listener : listener :=
  {| listener_target := TDocument; listener_type := "DOMContentLoaded";
     listener_handler := HReplaceQueryParameters |}.

Definition load_listener : listener :=
  {| listener_target := TWindow; listener_type := "load";
     listener_handler := HReplaceQueryParameters |}.

Definition retry (i delay : nat) : timer :=
  {| timer_id := i; timer_delay := delay;
     timer_handler := HReplaceQueryParameters |}.

Definition five_timers : list timer :=
  [retry 0 100; retry 1 300; retry 2 500; retry 3 1000; retry 4 2000].

Definition body_check : timer :=
  {| timer_id := 5; timer_delay := 100; timer_handler := HObserveWhenBody |}.

Definition body_observation (b : nat) : observation :=
  {| obs_callback := HObserverCallback; obs_target := b;
     obs_childList := true; obs_subtree := true |}.


(** *** What the host does with the registrations *)

Definition cancel_timer (i : nat) (p : page) : page :=
  {| page_world := page_world p;
     has_MutationObserver := has_MutationObserver p;
     listeners := listeners p;
     timers := filter (fun t => negb (Nat.eqb (timer_id t) i)) (timers p);
     next_timer := next_timer p;
     observations := observations p |}.

Definition listens (t : event_target) (type : string) (l : listener) : bool :=
  match t, listener_target l with
  | TDocument, TDocument | TWindow, TWindow => String.eqb type (listener_type l)
  | _, _ => false
  end.

Definition dispatch (t : event_target) (type : string) (p : page) : page :=
  fold_left (fun q l => run_handler (listener_handler l) q)
    (filter (listens t type) (listeners p)) p.

Inductive event :=
| Fired (t : timer)                              (* a timer elapsed *)
| Dispatched (t : event_target) (type : string)  (* an event was dispatched *)
| Notified (o : observation)                     (* a batch of mutations was delivered *)
| Mutated.                                       (* another actor changed the document *)

(** One turn of the event loop. A timer that fires leaves the pending
    list before its handler runs; listeners and observations stay. *)
Inductive step : page -> event -> page -> Prop :=
| step_timer p t :
    In t (timers p) ->
    step p (Fired t) (run_handler (timer_handler t) (cancel_timer (timer_id t) p))
| step_dispatch p t type :
    step p (Dispatched t type) (dispatch t type p)
| step_notify p o :
    In o (observations p) ->
    step p (Notified o) (run_handler (obs_callback o) p)
| step_mutate p d :
    step p Mutated
      (with_world {| dom := d; console := console (page_world p) |} p).

(** How many times the timer of identity [i] fired in a run. *)
Fixpoint fired_count (i : nat) (es : list event) : nat :=
  match es with
  | [] => 0
  | Fired t :: r => (if Nat.eqb (timer_id t) i then 1 else 0) + fired_count i r
  | _ :: r => fired_count i r
  end.

(** The handlers an event runs. *)
Definition handlers_of (e : event) (p : page) : list handler :=
  match e with
  | Fired t => [timer_handler t]
  | Dispatched t type =>
      map listener_handler (filter (listens t type) (listeners p))
  | Notified o => [obs_callback o]
  | Mutated => []
  end.

Inductive run : page -> list event -> page -> Prop :=
| run_nil p : run p [] p
| run_cons p e q es r : step p e q -> run q es r -> run p (e :: es) r.

End Page.
Arguments page D : clear implicits.

(** *** Pages used as examples *)

Definition still_loading (d : document) : document :=
  {| doc_readyState := "loading";
     doc_children := doc_children d;
     detached := detached d |}.

(** The page after the script ran while the document was loading. *)
Definition page_one : page document :=
  loaded (on_load (still_loading three_headings)) true.

(** Another page on the same document: no [MutationObserver], a
    console that is not empty, and a listener for [load]. *)
Definition page_two : page document :=
  addEventListener TWindow "load" HReplaceQueryParameters
    (fresh_page
       {| dom := still_loading three_headings;
          console := [{| entry_level := LevelError; entry_args := [] |}] |}
       false).

(** A document with no body yet, and with one. *)
Definition no_body : document :=
  {| doc_readyState := "loading";
     doc_children := [Element 0 "html" [] [Element 1 "head" [] []]];
     detached := [] |}.

Definition with_body : document :=
  {| doc_readyState := "interactive";
     doc_children :=
       [Element 0 "html" []
          [Element 1 "head" [] [];
           Element 2 "body" [] [h4_title 3 [Text (str "Query Parameters")]]]];
     detached := [] |}.

(* ================================================================= *)
(** ** A scripted host *)

(** What a unit test or an environment that is not a browser may put
    behind the same interface: selection completes the way it is
    told to (its list may hold [null] and [undefined]), every node has
    the text value it is given ([null] included), and assigning to a
    read-only node throws. *)
Record stub := {
  stub_selection : completion (list jsref);
  stub_text : list (nat * textval);
  stub_readonly : list nat
}.

Fixpoint assoc (n : nat) (l : list (nat * textval)) : textval :=
  match l with
  | [] => VUndefined
  | (k, v) :: r => if Nat.eqb k n then v else assoc n r
  end.

Definition stub_set_textContent (n : nat) (value : jsstring) (s : stub)
  : completion unit * stub :=
  if existsb (Nat.eqb n) (stub_readonly s)
  then (Throw "NoModificationAllowedError"%string, s)
  else (Normal tt,
        {| stub_selection := stub_selection s;
           stub_text := (n, VString value) :: stub_text s;
           stub_readonly := stub_readonly s |}).

#[export] Instance stub_Host : Host stub := {
  host_readyState := fun _ => "complete"%string;
  host_body := fun _ => RNull;
  host_querySelectorAll := fun _ s => stub_selection s;
  host_textContent := fun n s => assoc n (stub_text s);
  host_set_textContent := stub_set_textContent
}.

(** A host without the selection interface. *)
Definition no_selection : stub :=
  {| stub_selection := Throw "TypeError"%string; stub_text := [];
     stub_readonly := [] |}.

(** Two headings with the phrase, the second read-only. *)
Definition frozen_heading : stub :=
  {| stub_selection := Normal [RNode 1; RNode 2];
     stub_text := [(1, VString (str "Query Parameters"));
                   (2, VString (str "Query Parameters"))];
     stub_readonly := [2] |}.

(** A node list with every kind of entry the guard skips, and one
    heading with the phrase. *)
Definition sparse_list : stub :=
  {| stub_selection :=
       Normal [RNull; RUndefined; RNode 1; RNode 2; RNode 3; RNode 4];
     stub_text := [(1, VNull); (3, VString []);
                   (4, VString (str "Query Parameters"))];
     stub_readonly := [] |}.

Definition stub_world (s : stub) : world stub := {| dom := s; console := [] |}.

(* ================================================================= *)
(** ** Repeated passes, and measures on runs *)

(** The world after [k] passes in a row, as the triggers of the script
    produce them. *)
Fixpoint passes {D : Type} `{Host D} (k : nat) (w : world D) : world D :=
  match k with
  | 0 => w
  | S k' => passes k' (pass_result w)
  end.

(** A heading a pass has nothing left to do with: its only child is
    the text "Parameters". *)
Definition settled (t : node) : bool :=
  match t with
  | Element _ _ _ [Text s] => jsstring_eqb s (str "Parameters")
  | _ => false
  end.

Definition settled_at (d : document) (n : nat) : bool :=
  match lookup n d with
  | Some t => settled t
  | None => false
  end.

Definition unsettled (d : document) : list nat :=
  filter (fun n => negb (settled_at d n)) (headings_of d).

(** A string of white space only. *)
Definition white_space_only (s : jsstring) : bool :=
  forallb is_white_space s.

(** How many of the events of a run are timers that call the pass. *)
Fixpoint pass_firings (es : list event) : nat :=
  match es with
  | [] => 0
  | Fired t :: r =>
      (if invokes_pass (timer_handler t) then 1 else 0) + pass_firings r
  | _ :: r => pass_firings r
  end.

Definition pass_timers (l : list timer) : list timer :=
  filter (fun t => invokes_pass (timer_handler t)) l.

Definition body_checks (l : list timer) : list timer :=
  filter (fun t => negb (invokes_pass (timer_handler t))) l.

(** The observations made and the body checks pending are one at most
    together, and nothing but a body check observes. *)
Definition observes_once {D : Type} `{Host D} (p : page D) : Prop :=
  List.length (observations p) + List.length (body_checks (timers p)) <= 1
  /\ Forall (fun l => invokes_pass (listener_handler l) = true) (listeners p)
  /\ Forall (fun o => invokes_pass (obs_callback o) = true) (observations p).

(* ================================================================= *)
(** ** The document a pass leaves, as a function of the tree *)

(** The tree with every outermost target emptied but for the new text
    node; below a target nothing is kept, elsewhere nothing changes. *)
Fixpoint rewrite_tree (t : node) : node :=
  match t with
  | Element i name cls ch =>
      if is_target t then Element i name cls [Text (str "Parameters")]
      else Element i name cls (map rewrite_tree ch)
  | _ => t
  end.

(** The elements of the document, by identity. *)
Definition in_document (d : document) (n : nat) : Prop :=
  In n (flat_map ids (doc_children d)).

(** [n] lies below a selected heading that has the phrase. *)
Definition below_target (d : document) (n : nat) : Prop :=
  exists h u,
    In h (headings_of d) /\ lookup h d = Some u /\ phrase_at d h = true
    /\ In n (ids u) /\ n <> h.

(** The test of the callback under any way of dereferencing. *)
Definition phrase_in (find : nat -> option node) (n : nat) : bool :=
  match find n with
  | Some t => has_phrase t
  | None => false
  end.

(** The assignments of a pass, one after the other, on one tree. *)
Definition replace_all (ns : list nat) (t : node) : node :=
  fold_left (fun t n => replace_children n [Text (str "Parameters")] t) ns t.

(** A heading that reads "Query Parameters List" through a heading
    inside it:
[[
  <h4 class="api-section-heading-title"><span>
    <h4 class="api-section-heading-title">Query Parameters</h4></span> List</h4>
]] *)
Definition list_over_heading : document :=
  page_of
    [h4_title 2
       [Element 3 "span" [] [h4_title 4 [Text (str "Query Parameters")]];
        Text (str " List")]].

(** What a pass leaves of a selected heading [n] it does not assign
    to: its own state; its place among the selected headings of the
    document, unless it was below a heading that was rewritten; and all
    of it, text content included, when no selected heading with the
    phrase lies inside it. *)
Definition heading_kept (d d' : document) (n : nat) : Prop :=
  forall u,
    lookup n d = Some u ->
    (exists u', lookup n d' = Some u' /\ own_state u' = own_state u)
    /\ (~ below_target d n -> In n (headings_of d'))
    /\ ((forall m, In m (headings_of d) -> phrase_at d m = true ->
                   ~ In m (ids u)) ->
        lookup n d' = Some u
        /\ dom_textContent n d' = dom_textContent n d).

(* ################################################################# *)
(** * Properties *)

(* ================================================================= *)
(** ** Strings *)

Lemma jsstring_eqb_eq (a b : jsstring) : jsstring_eqb a b = true <-> a = b.
Proof.
  revert b; induction a as [|x a IH]; intros [|y b]; simpl; try easy.
  rewrite andb_true_iff, N.eqb_eq, IH. split.
  - intros [-> ->]; reflexivity.
  - intros [= -> ->]; auto.
Qed.

Lemma jsstring_eqb_refl (a : jsstring) : jsstring_eqb a a = true.
Proof. apply jsstring_eqb_eq; reflexivity. Qed.

Lemma jsstring_eqb_neq (a b : jsstring) : jsstring_eqb a b = false <-> a <> b.
Proof.
  rewrite <- jsstring_eqb_eq. destruct (jsstring_eqb a b); split; congruence.
Qed.

(** The phrase is not empty, so a text that trims to it is truthy. *)
Lemma trims_to_phrase_truthy (s : jsstring) :
  jsstring_eqb (trim s) (str "Query Parameters") = true ->
  truthy_text (VString s) = true.
Proof. destruct s; [discriminate | reflexivity]. Qed.

(* ================================================================= *)
(** ** The pass over any host *)

Section PassFacts.
Context {D : Type} `{Host D}.

Lemma callback_visit (n k : nat) (w : world D) :
  callback (RNode n) k w = visit n k w.
Proof.
  unfold callback, visit, bind, textContent, set_textContent, ret, throw.
  destruct (host_textContent n (dom w)) as [| |s] eqn:E; simpl; try reflexivity.
  destruct s as [|c s]; [reflexivity|]. simpl. rewrite E.
  destruct (jsstring_eqb _ _); [|reflexivity].
  destruct (host_set_textContent _ _ _) as [[[]|e] d]; reflexivity.
Qed.

Lemma callback_falsy (h : jsref) (k : nat) (w : world D) :
  truthy_ref h = false -> callback h k w = (Normal k, w).
Proof. destruct h; simpl; intros; try reflexivity; discriminate. Qed.

(** The callback does not read the console and only hands it on. *)
Lemma callback_console (h : jsref) (k : nat) (w : world D) (c : list entry) :
  callback h k {| dom := dom w; console := c |}
  = (fst (callback h k w),
     {| dom := dom (snd (callback h k w)); console := c |}).
Proof.
  destruct h as [| |n]; try reflexivity.
  rewrite !callback_visit. unfold visit; simpl.
  destruct (host_textContent n (dom w)); try reflexivity.
  destruct (jsstring_eqb _ _); [|reflexivity].
  destruct (host_set_textContent _ _ _) as [[[]|e] d]; reflexivity.
Qed.

Lemma forEach_console (l : list jsref) (k : nat) (w : world D) (c : list entry) :
  forEach l callback k {| dom := dom w; console := c |}
  = (fst (forEach l callback k w),
     {| dom := dom (snd (forEach l callback k w)); console := c |}).
Proof.
  revert k w; induction l as [|h l IH]; intros k w; simpl.
  - reflexivity.
  - unfold bind. rewrite callback_console.
    destruct (callback h k w) as [[k'|e] w'] eqn:E; simpl.
    + rewrite IH. destruct w'; reflexivity.
    + reflexivity.
Qed.

Lemma forEach_keeps_console (l : list jsref) (k : nat) (w : world D) :
  console (snd (forEach l callback k w)) = console w.
Proof.
  pose proof (forEach_console l k w (console w)) as E.
  destruct w as [d c]; simpl in *. rewrite E. reflexivity.
Qed.


Lemma forEach_app (a b : list jsref) (k : nat) (w : world D) :
  forEach (a ++ b) callback k w
  = match forEach a callback k w with
    | (Normal k', w') => forEach b callback k' w'
    | (Throw e, w') => (Throw e, w')
    end.
Proof.
  revert k w; induction a as [|h a IH]; intros k w; simpl.
  - reflexivity.
  - unfold bind. destruct (callback h k w) as [[k'|e] w']; [apply IH | reflexivity].
Qed.

Lemma degenerate_visit (h : jsref) (k : nat) (w : world D) :
  degenerate h (dom w) -> callback h k w = (Normal k, w).
Proof.
  intros [-> | [-> | (n & -> & Ht)]]; try reflexivity.
  rewrite callback_visit. unfold visit.
  destruct Ht as [-> | [-> | ->]]; reflexivity.
Qed.

(** The body of the [try] logs nothing unless it completes. *)
Lemma scan_and_replace_throw (w w' : world D) (e : exn) :
  scan_and_replace w = (Throw e, w') -> console w' = console w.
Proof.
  unfold scan_and_replace, bind, querySelectorAll.
  destruct (host_querySelectorAll _ _) as [l|e0].
  - destruct (forEach (S := world D) l callback 0 w) as [[k|e1] w1] eqn:E.
    + discriminate.
    + intros [= <- <-]. rewrite <- (forEach_keeps_console l 0 w), E. reflexivity.
  - intros [= <- <-]. reflexivity.
Qed.

Lemma scan_and_replace_normal (w w' : world D) (u : unit) :
  scan_and_replace w = (Normal u, w') ->
  exists l k w1,
    host_querySelectorAll "h4.api-section-heading-title" (dom w) = Normal l
    /\ forEach l callback 0 w = (Normal k, w1)
    /\ w' = {| dom := dom w1; console := console w ++ [count_record k] |}.
Proof.
  unfold scan_and_replace, bind, querySelectorAll.
  destruct (host_querySelectorAll _ _) as [l|e0]; [|discriminate].
  destruct (forEach (S := world D) l callback 0 w) as [[k|e1] w1] eqn:E; [|discriminate].
  intros [= _ E2]. exists l, k, w1. split; [reflexivity|]. split; [exact E|].
  pose proof (forEach_keeps_console l 0 w) as K. rewrite E in K; simpl in K.
  rewrite <- E2, K. reflexivity.
Qed.

(** A pass returns normally and adds one record to the console. *)
Lemma pass_adds_one_record (w : world D) :
  exists d r,
    replaceQueryParameters w
    = (Normal tt, {| dom := d; console := console w ++ [r] |}).
Proof.
  unfold replaceQueryParameters, try_catch.
  destruct (scan_and_replace w) as [[[]|e] w'] eqn:E.
  - destruct (scan_and_replace_normal _ _ _ E) as (l & k & w1 & _ & _ & ->).
    eexists _, _. reflexivity.
  - apply scan_and_replace_throw in E. unfold console_error, console_emit.
    rewrite E. eexists _, _. reflexivity.
Qed.

(** The console a pass starts with is only extended: what the pass
    does is a function of the document. *)
Lemma scan_and_replace_console (w : world D) (c : list entry) :
  scan_and_replace {| dom := dom w; console := c |}
  = (fst (scan_and_replace {| dom := dom w; console := [] |}),
     {| dom := dom (snd (scan_and_replace {| dom := dom w; console := [] |}));
        console :=
          c ++ console (snd (scan_and_replace {| dom := dom w; console := [] |})) |}).
Proof.
  unfold scan_and_replace, bind, querySelectorAll; simpl.
  destruct (host_querySelectorAll _ _) as [l|e0]; simpl.
  - pose proof (forEach_console l 0 {| dom := dom w; console := [] |} c) as E.
    simpl in E; rewrite E; clear E.
    pose proof (forEach_keeps_console l 0 {| dom := dom w; console := [] |}) as K.
    destruct (forEach l callback 0 {| dom := dom w; console := [] |})
      as [[k|e] [d1 c1]]; simpl in *; subst c1.
    + reflexivity.
    + rewrite app_nil_r. reflexivity.
  - rewrite app_nil_r. reflexivity.
Qed.

Lemma pass_console (w : world D) :
  replaceQueryParameters w
  = (Normal tt,
     {| dom := dom (snd (replaceQueryParameters {| dom := dom w; console := [] |}));
        console :=
          console w
          ++ console (snd (replaceQueryParameters {| dom := dom w; console := [] |})) |}).
Proof.
  unfold replaceQueryParameters, try_catch.
  destruct w as [d c]; simpl.
  pose proof (scan_and_replace_console {| dom := d; console := c |} c) as E.
  simpl in E; rewrite E; clear E.
  destruct (scan_and_replace {| dom := d; console := [] |}) as [[[]|e] [d1 c1]]; simpl.
  - reflexivity.
  - unfold console_error, console_emit; simpl. rewrite app_assoc. reflexivity.
Qed.

End PassFacts.

(* ================================================================= *)
(** ** Trees and forests *)

Lemma NoDup_app_inv {A} (a b : list A) :
  NoDup (a ++ b) ->
  NoDup a /\ NoDup b /\ (forall x, In x a -> ~ In x b).
Proof.
  induction a as [|x a IH]; simpl; intros N.
  - repeat split; [constructor | assumption | intros _ []].
  - apply NoDup_cons_iff in N as [Nx N]. destruct (IH N) as (Na & Nb & Nab).
    repeat split.
    + constructor; [|assumption]. intros I; apply Nx, in_or_app; auto.
    + assumption.
    + intros y [<-|I] Ib; [apply Nx, in_or_app; auto | exact (Nab y I Ib)].
Qed.

Lemma find_node_element n i name cls ch :
  find_node n (Element i name cls ch)
  = if Nat.eqb i n then Some (Element i name cls ch) else find_in n ch.
Proof.
  simpl. destruct (Nat.eqb i n); [reflexivity|].
  induction ch as [|c r IH]; simpl; [reflexivity|].
  destruct (find_node n c); [reflexivity | exact IH].
Qed.

Lemma find_in_app n a b :
  find_in n (a ++ b)
  = match find_in n a with Some u => Some u | None => find_in n b end.
Proof.
  induction a as [|c a IH]; simpl; [reflexivity|].
  destruct (find_node n c); [reflexivity | exact IH].
Qed.

(** What is found under [n] is an element of identity [n], and a part
    of the tree searched. *)
Lemma find_node_spec n t u :
  find_node n t = Some u ->
  (exists name cls ch, u = Element n name cls ch) /\ incl (ids u) (ids t).
Proof.
  revert u. induction t as [s|s|i name cls ch IH] using node_forall_ind;
    intros u; try discriminate.
  rewrite find_node_element. destruct (Nat.eqb_spec i n) as [->|Ne].
  - intros [= <-]. split; [eauto | apply incl_refl].
  - intros F. cut ((exists name cls ch, u = Element n name cls ch)
                   /\ incl (ids u) (flat_map ids ch)).
    { intros [A B]. split; [exact A|]. simpl. apply incl_tl, B. }
    induction ch as [|c r IHr]; simpl in F; [discriminate|].
    apply Forall_cons_iff in IH as [IHc IH].
    destruct (find_node n c) as [x|] eqn:E.
    + injection F as ->. destruct (IHc _ eq_refl) as [A B]. split; [exact A|].
      simpl. apply incl_appl, B.
    + destruct (IHr IH F) as [A B]. split; [exact A|].
      simpl. apply incl_appr, B.
Qed.

Lemma find_in_spec n f u :
  find_in n f = Some u ->
  (exists name cls ch, u = Element n name cls ch)
  /\ incl (ids u) (flat_map ids f).
Proof.
  induction f as [|c r IH]; simpl; [discriminate|].
  destruct (find_node n c) as [x|] eqn:E.
  - intros [= ->]. destruct (find_node_spec _ _ _ E) as [A B].
    split; [exact A | apply incl_appl, B].
  - intros F. destruct (IH F) as [A B]. split; [exact A | apply incl_appr, B].
Qed.

Lemma find_in_In n f u : find_in n f = Some u -> In n (flat_map ids f).
Proof.
  intros F. destruct (find_in_spec _ _ _ F) as [(name & cls & ch & ->) I].
  apply I. simpl; auto.
Qed.

Lemma find_node_In n t u : find_node n t = Some u -> In n (ids t).
Proof.
  intros F. destruct (find_node_spec _ _ _ F) as [(name & cls & ch & ->) I].
  apply I. simpl; auto.
Qed.

(** Every identity of a tree is found. *)
Lemma find_node_some n t : In n (ids t) -> find_node n t <> None.
Proof.
  induction t as [s|s|i name cls ch IH] using node_forall_ind;
    [intros [] | intros [] |].
  rewrite find_node_element. destruct (Nat.eqb_spec i n) as [->|Ne].
  - discriminate.
  - simpl. intros [E|I]; [contradiction|].
    induction ch as [|c r IHr]; simpl in *; [contradiction|].
    apply Forall_cons_iff in IH as [IHc IH].
    destruct (find_node n c) eqn:E; [discriminate|].
    apply in_app_or in I as [I|I]; [exfalso; exact (IHc I eq_refl) | auto].
Qed.

Lemma find_in_some n f : In n (flat_map ids f) -> find_in n f <> None.
Proof.
  induction f as [|c r IH]; simpl; [intros []|].
  intros I. destruct (find_node n c) eqn:E; [discriminate|].
  apply in_app_or in I as [I|I]; [exfalso; exact (find_node_some _ _ I E) | auto].
Qed.

Lemma find_node_none n t : ~ In n (ids t) -> find_node n t = None.
Proof.
  intros N. destruct (find_node n t) eqn:E; [|reflexivity].
  exfalso. exact (N (find_node_In _ _ _ E)).
Qed.

Lemma find_in_none n f : ~ In n (flat_map ids f) -> find_in n f = None.
Proof.
  intros N. destruct (find_in n f) eqn:E; [|reflexivity].
  exfalso. exact (N (find_in_In _ _ _ E)).
Qed.

(** Replacing the children of an element that is not there. *)
Lemma replace_children_absent n new t :
  ~ In n (ids t) -> replace_children n new t = t.
Proof.
  induction t as [s|s|i name cls ch IH] using node_forall_ind;
    try reflexivity.
  simpl. intros N. destruct (Nat.eqb_spec i n) as [->|Ne]; [tauto|].
  f_equal. assert (N' : ~ In n (flat_map ids ch)) by tauto. clear N.
  induction ch as [|c r IHr]; simpl in *; [reflexivity|].
  apply Forall_cons_iff in IH as [IHc IH].
  rewrite IHc, IHr; auto; intros I; apply N', in_or_app; auto.
Qed.

Lemma replace_forest_absent n new f :
  ~ In n (flat_map ids f) -> map (replace_children n new) f = f.
Proof.
  induction f as [|c r IH]; simpl; [reflexivity|].
  intros N. rewrite replace_children_absent, IH; auto;
    intros I; apply N, in_or_app; auto.
Qed.

(** Replacing children by nodes that hold no element adds no identity. *)
Lemma ids_replace_incl n new t :
  flat_map ids new = [] -> incl (ids (replace_children n new t)) (ids t).
Proof.
  intros Hnew.
  induction t as [s|s|i name cls ch IH] using node_forall_ind;
    try apply incl_refl.
  simpl. destruct (Nat.eqb i n).
  - simpl. rewrite Hnew. intros x [<-|[]]; simpl; auto.
  - simpl. apply incl_cons; [simpl; auto|]. apply incl_tl.
    induction ch as [|c r IHr]; simpl; [apply incl_refl|].
    apply Forall_cons_iff in IH as [IHc IH].
    apply incl_app; [apply incl_appl, IHc | apply incl_appr, IHr, IH].
Qed.

Lemma ids_replace_forest_incl n new f :
  flat_map ids new = [] ->
  incl (flat_map ids (map (replace_children n new) f)) (flat_map ids f).
Proof.
  intros Hnew. induction f as [|c r IH]; simpl; [apply incl_refl|].
  apply incl_app; [apply incl_appl, ids_replace_incl, Hnew | apply incl_appr, IH].
Qed.

Lemma find_node_NoDup n t u :
  find_node n t = Some u -> NoDup (ids t) -> NoDup (ids u).
Proof.
  revert u. induction t as [s|s|i name cls ch IH] using node_forall_ind;
    intros u; try discriminate.
  rewrite find_node_element. destruct (Nat.eqb i n).
  - intros [= <-]; auto.
  - intros F N. simpl in N. apply NoDup_cons_iff in N as [_ N].
    induction ch as [|c r IHr]; simpl in *; [discriminate|].
    apply Forall_cons_iff in IH as [IHc IH].
    apply NoDup_app_inv in N as (Nc & Nr & _).
    destruct (find_node n c) eqn:E.
    + injection F as ->. exact (IHc _ eq_refl Nc).
    + exact (IHr IH F Nr).
Qed.

Lemma find_in_NoDup n f u :
  find_in n f = Some u -> NoDup (flat_map ids f) -> NoDup (ids u).
Proof.
  induction f as [|c r IH]; simpl; [discriminate|].
  intros F N. apply NoDup_app_inv in N as (Nc & Nr & _).
  destruct (find_node n c) eqn:E.
  - injection F as ->. exact (find_node_NoDup _ _ _ E Nc).
  - exact (IH F Nr).
Qed.

(** The element whose children are replaced is found with the new
    children. *)
Lemma find_replaced_tree n new t name cls old :
  find_node n t = Some (Element n name cls old) ->
  find_node n (replace_children n new t) = Some (Element n name cls new).
Proof.
  induction t as [s|s|i nm c ch IH] using node_forall_ind; try discriminate.
  rewrite find_node_element. simpl replace_children.
  destruct (Nat.eqb_spec i n) as [->|Ne].
  - intros [= -> -> ->]. rewrite find_node_element, Nat.eqb_refl. reflexivity.
  - rewrite find_node_element. destruct (Nat.eqb_spec i n); [contradiction|].
    induction ch as [|x r IHr]; simpl; [discriminate|].
    apply Forall_cons_iff in IH as [IHx IH].
    destruct (find_node n x) eqn:E.
    + intros [= ->]. rewrite (IHx eq_refl). reflexivity.
    + rewrite replace_children_absent.
      * rewrite E. exact (IHr IH).
      * intros I. exact (find_node_some _ _ I E).
Qed.

Lemma find_replaced_forest n new f name cls old :
  find_in n f = Some (Element n name cls old) ->
  find_in n (map (replace_children n new) f) = Some (Element n name cls new).
Proof.
  induction f as [|x r IH]; simpl; [discriminate|].
  destruct (find_node n x) eqn:E.
  - intros [= ->]. rewrite (find_replaced_tree _ new _ _ _ _ E). reflexivity.
  - rewrite replace_children_absent.
    + rewrite E. exact IH.
    + intros I. exact (find_node_some _ _ I E).
Qed.

Lemma relocated_lift n new f :
  flat_map ids new = [] ->
  Forall (relocated_tree n new) f -> relocated_forest n new f.
Proof.
  intros Hnew. induction f as [|c rest IH]; intros Hf N.
  - intros name cls old m u Fn; discriminate.
  - apply Forall_cons_iff in Hf as [Hc Hrest]. simpl in N.
    apply NoDup_app_inv in N as (Nc & Nr & Dis).
    intros name cls old m u Fn Ne Fm. simpl in Fn, Fm. simpl.
    destruct (find_node n c) as [x|] eqn:En.
    + injection Fn as ->.
      pose proof (find_node_In _ _ _ En) as Inc.
      destruct (find_node_spec _ _ _ En) as [_ Sub]. simpl in Sub.
      apply incl_cons_inv in Sub as [_ Sub].
      rewrite (replace_forest_absent n new rest) by (apply Dis, Inc).
      destruct (find_node m c) as [y|] eqn:Em.
      * injection Fm as ->. destruct (Hc Nc _ _ _ _ _ En Ne Em) as [A B]. split.
        -- intros I. destruct (A I) as [A1 A2]. rewrite A1. split; [|exact A2].
           apply find_in_none, Dis, Sub, I.
        -- intros I. rewrite (B I). reflexivity.
      * pose proof (find_in_In _ _ _ Fm) as Imr. split.
        -- intros I. exfalso. exact (Dis _ (Sub _ I) Imr).
        -- intros _. rewrite find_node_none.
           ++ rewrite Fm. f_equal. symmetry. apply replace_children_absent.
              intros I. destruct (find_in_spec _ _ _ Fm) as [_ Su].
              exact (Dis _ Inc (Su _ I)).
           ++ intros I. apply (ids_replace_incl _ _ _ Hnew) in I.
              exact (Dis _ I Imr).
    + assert (Nnc : ~ In n (ids c)) by (intros I; exact (find_node_some _ _ I En)).
      rewrite (replace_children_absent n new c Nnc).
      destruct (find_in_spec _ _ _ Fn) as [_ Sub]. simpl in Sub.
      apply incl_cons_inv in Sub as [Inr Sub].
      destruct (find_node m c) as [y|] eqn:Em.
      * injection Fm as ->. pose proof (find_node_In _ _ _ Em) as Imc. split.
        -- intros I. exfalso. exact (Dis _ Imc (Sub _ I)).
        -- intros _. f_equal. symmetry. apply replace_children_absent.
           intros I. destruct (find_node_spec _ _ _ Em) as [_ Su].
           exact (Nnc (Su _ I)).
      * exact (IH Hrest Nr _ _ _ _ _ Fn Ne Fm).
Qed.

Lemma relocated_tree_all n new t :
  flat_map ids new = [] -> relocated_tree n new t.
Proof.
  intros Hnew.
  induction t as [s|s|i nm c ch IH] using node_forall_ind;
    try (intros N name cls old m u Fn; discriminate).
  intros N name cls old m u Fn Ne Fm. cbv beta in *.
  rewrite find_node_element in Fn, Fm. simpl replace_children.
  simpl in N. apply NoDup_cons_iff in N as [Ni N].
  destruct (Nat.eqb_spec i n) as [->|Nin].
  - injection Fn as -> -> ->.
    destruct (Nat.eqb_spec n m) as [->|_]; [contradiction|]. split.
    + intros I. split; [|exact Fm]. apply find_node_none. simpl.
      rewrite Hnew. simpl. intros [E|[]]. auto.
    + intros NI. exfalso. exact (NI (find_in_In _ _ _ Fm)).
  - destruct (find_in_spec _ _ _ Fn) as [_ Sub]. simpl in Sub.
    apply incl_cons_inv in Sub as [_ Sub].
    rewrite find_node_element.
    destruct (Nat.eqb_spec i m) as [->|Nim].
    + injection Fm as <-. split.
      * intros I. exfalso. exact (Ni (Sub _ I)).
      * intros _. simpl. destruct (Nat.eqb_spec m n); [contradiction|reflexivity].
    + exact (relocated_lift n new ch Hnew IH N _ _ _ _ _ Fn Ne Fm).
Qed.

Lemma relocated_forest_all n new f :
  flat_map ids new = [] -> relocated_forest n new f.
Proof.
  intros Hnew. apply relocated_lift; [exact Hnew|].
  apply Forall_forall. intros t _. apply relocated_tree_all, Hnew.
Qed.

(** The identities after a replacement: those before, the removed
    children aside. *)
Lemma ids_replace_perm_lift n new f name cls old :
  Forall (fun t =>
            find_node n t = Some (Element n name cls old) ->
            Permutation (ids t)
              (ids (replace_children n new t) ++ flat_map ids old)) f ->
  NoDup (flat_map ids f) ->
  find_in n f = Some (Element n name cls old) ->
  Permutation (flat_map ids f)
    (flat_map ids (map (replace_children n new) f) ++ flat_map ids old).
Proof.
  induction f as [|c rest IH]; intros Hf N Fn; [discriminate|].
  apply Forall_cons_iff in Hf as [Hc Hrest]. simpl in N, Fn. simpl.
  apply NoDup_app_inv in N as (Nc & Nr & Dis).
  destruct (find_node n c) as [x|] eqn:En.
  - injection Fn as ->.
    rewrite (replace_forest_absent n new rest)
      by (apply Dis, (find_node_In _ _ _ En)).
    rewrite <- app_assoc.
    eapply Permutation_trans; [apply Permutation_app_tail, Hc, eq_refl|].
    rewrite <- app_assoc. apply Permutation_app_head, Permutation_app_comm.
  - rewrite (replace_children_absent n new c)
      by (intros I; exact (find_node_some _ _ I En)).
    rewrite <- app_assoc. apply Permutation_app_head, IH; assumption.
Qed.

Lemma ids_replace_perm_tree n new t name cls old :
  flat_map ids new = [] ->
  NoDup (ids t) ->
  find_node n t = Some (Element n name cls old) ->
  Permutation (ids t) (ids (replace_children n new t) ++ flat_map ids old).
Proof.
  intros Hnew.
  induction t as [s|s|i nm c ch IH] using node_forall_ind; try discriminate.
  intros N. rewrite find_node_element. simpl replace_children.
  simpl in N. apply NoDup_cons_iff in N as [_ N].
  destruct (Nat.eqb_spec i n) as [->|Nin].
  - intros [= -> -> ->]. simpl. rewrite Hnew. apply Permutation_refl.
  - intros Fn. simpl. apply perm_skip.
    apply (ids_replace_perm_lift n new ch name cls old); [|exact N|exact Fn].
    apply Forall_forall. intros t It.
    rewrite Forall_forall in IH. apply IH; [exact It|].
    clear -N It. induction ch as [|c r IHr]; [destruct It|].
    simpl in N. apply NoDup_app_inv in N as (Nc & Nr & _).
    destruct It as [->|It]; auto.
Qed.

Lemma ids_replace_perm_forest n new f name cls old :
  flat_map ids new = [] ->
  NoDup (flat_map ids f) ->
  find_in n f = Some (Element n name cls old) ->
  Permutation (flat_map ids f)
    (flat_map ids (map (replace_children n new) f) ++ flat_map ids old).
Proof.
  intros Hnew N. apply (ids_replace_perm_lift n new f name cls old); [|exact N].
  apply Forall_forall. intros t It.
  apply ids_replace_perm_tree; [exact Hnew|].
  clear -N It. induction f as [|c r IHr]; [destruct It|].
  simpl in N. apply NoDup_app_inv in N as (Nc & Nr & _).
  destruct It as [->|It]; auto.
Qed.

(* ================================================================= *)
(** ** Selection *)

Lemma select_element c i nm cl ch :
  select c (Element i nm cl ch)
  = (if matches c (Element i nm cl ch) then [i] else [])
    ++ flat_map (select c) ch.
Proof. reflexivity. Qed.

Lemma select_incl_ids c t : incl (select c t) (ids t).
Proof.
  induction t as [s|s|i nm cl ch IH] using node_forall_ind;
    try apply incl_refl.
  rewrite select_element. simpl ids. apply incl_app.
  - destruct (matches c _); [|intros x []]. intros x [<-|[]]. simpl; auto.
  - apply incl_tl. induction ch as [|x r IHr]; simpl; [apply incl_refl|].
    apply Forall_cons_iff in IH as [IHx IH].
    apply incl_app; [apply incl_appl, IHx | apply incl_appr, IHr, IH].
Qed.

Lemma select_forest_incl_ids c f :
  incl (flat_map (select c) f) (flat_map ids f).
Proof.
  induction f as [|x r IH]; simpl; [apply incl_refl|].
  apply incl_app; [apply incl_appl, select_incl_ids | apply incl_appr, IH].
Qed.

Lemma matches_replace c n new t :
  matches c (replace_children n new t) = matches c t.
Proof. destruct t; try reflexivity. simpl. destruct (Nat.eqb id n); reflexivity. Qed.

(** A replacement by nodes without elements selects nothing new. *)
Lemma select_replace_incl c n new t :
  flat_map (select c) new = [] ->
  incl (select c (replace_children n new t)) (select c t).
Proof.
  intros Hnew.
  induction t as [s|s|i nm cl ch IH] using node_forall_ind;
    try apply incl_refl.
  pose proof (matches_replace c n new (Element i nm cl ch)) as Hm.
  simpl replace_children in *. destruct (Nat.eqb i n).
  - rewrite !select_element, Hnew, Hm. apply incl_app; [|intros x []].
    apply incl_appl, incl_refl.
  - rewrite !select_element, Hm. apply incl_app; [apply incl_appl, incl_refl|].
    apply incl_appr. clear Hm.
    induction ch as [|x r IHr]; simpl; [apply incl_refl|].
    apply Forall_cons_iff in IH as [IHx IH].
    apply incl_app; [apply incl_appl, IHx | apply incl_appr, IHr, IH].
Qed.

Lemma select_replace_forest_incl c n new f :
  flat_map (select c) new = [] ->
  incl (flat_map (select c) (map (replace_children n new) f))
    (flat_map (select c) f).
Proof.
  intros Hnew. induction f as [|x r IH]; simpl; [apply incl_refl|].
  apply incl_app; [apply incl_appl, select_replace_incl, Hnew | apply incl_appr, IH].
Qed.

Lemma select_forest_NoDup c f :
  Forall (fun t => NoDup (ids t) -> NoDup (select c t)) f ->
  NoDup (flat_map ids f) -> NoDup (flat_map (select c) f).
Proof.
  induction f as [|x r IH]; simpl; intros Hf N; [constructor|].
  apply Forall_cons_iff in Hf as [Hx Hr].
  apply NoDup_app_inv in N as (Nx & Nr & Dis).
  apply NoDup_app; auto.
  intros a Ia Ir. apply (Dis a).
  - apply (select_incl_ids c x), Ia.
  - apply (select_forest_incl_ids c r), Ir.
Qed.

Lemma select_NoDup c t : NoDup (ids t) -> NoDup (select c t).
Proof.
  induction t as [s|s|i nm cl ch IH] using node_forall_ind;
    try (intros _; constructor).
  rewrite select_element. simpl ids. intros N.
  apply NoDup_cons_iff in N as [Ni N].
  apply NoDup_app.
  - destruct (matches c _); repeat constructor. intros [].
  - apply select_forest_NoDup; assumption.
  - intros a Ia Ic. destruct (matches c _); [|destruct Ia].
    destruct Ia as [<-|[]]. apply Ni, (select_forest_incl_ids c ch), Ic.
Qed.

Lemma tree_ordered_ext find find' l :
  (forall m, In m l -> find m = find' m) ->
  tree_ordered find l -> tree_ordered find' l.
Proof.
  induction l as [|n post IH]; simpl; [auto|].
  intros E [A B]. split.
  - intros m u Im Fm. apply (A m u Im). rewrite E; auto.
  - apply IH; auto.
Qed.

Lemma tree_ordered_app find a b :
  tree_ordered find a ->
  tree_ordered find b ->
  (forall n m u, In n a -> In m b -> find m = Some u -> ~ In n (ids u)) ->
  tree_ordered find (a ++ b).
Proof.
  induction a as [|n post IH]; simpl; [auto|].
  intros [A B] Hb C. split.
  - intros m u Im Fm. apply in_app_or in Im as [Im|Im]; [eapply A | eapply C]; eauto.
  - apply IH; auto. intros; eapply C; eauto.
Qed.

(** Selection lists an element before the elements below it. *)
Lemma select_forest_ordered c f :
  Forall (fun t => NoDup (ids t) ->
                   tree_ordered (fun m => find_node m t) (select c t)) f ->
  NoDup (flat_map ids f) ->
  tree_ordered (fun m => find_in m f) (flat_map (select c) f).
Proof.
  induction f as [|x r IH]; simpl; intros Hf N; [exact I|].
  apply Forall_cons_iff in Hf as [Hx Hr].
  apply NoDup_app_inv in N as (Nx & Nr & Dis).
  apply tree_ordered_app.
  - apply (tree_ordered_ext (fun m => find_node m x)); [|auto].
    intros m Im. apply (select_incl_ids c x) in Im.
    destruct (find_node m x) eqn:E; [reflexivity|].
    exfalso. exact (find_node_some _ _ Im E).
  - apply (tree_ordered_ext (fun m => find_in m r)); [|auto].
    intros m Im. apply (select_forest_incl_ids c r) in Im.
    rewrite find_node_none; [reflexivity|]. intros Ix. exact (Dis _ Ix Im).
  - intros n m u In_ Im Fm.
    apply (select_incl_ids c x) in In_.
    apply (select_forest_incl_ids c r) in Im.
    rewrite find_node_none in Fm by (intros Ix; exact (Dis _ Ix Im)).
    destruct (find_in_spec _ _ _ Fm) as [_ Su].
    intros Iu. exact (Dis _ In_ (Su _ Iu)).
Qed.

Lemma select_ordered c t :
  NoDup (ids t) -> tree_ordered (fun m => find_node m t) (select c t).
Proof.
  induction t as [s|s|i nm cl ch IH] using node_forall_ind;
    try (intros _; exact I).
  intros N. simpl in N. apply NoDup_cons_iff in N as [Ni N].
  pose proof (select_forest_ordered c ch IH N) as Hch.
  assert (Inner : tree_ordered (fun m => find_node m (Element i nm cl ch))
                    (flat_map (select c) ch)).
  { apply (tree_ordered_ext (fun m => find_in m ch)); [|exact Hch].
    intros m Im. apply (select_forest_incl_ids c ch) in Im.
    rewrite find_node_element.
    destruct (Nat.eqb_spec i m) as [->|_]; [contradiction|reflexivity]. }
  rewrite select_element. apply tree_ordered_app; [|exact Inner|].
  - destruct (matches c _); simpl; [split; [intros m u []|exact I] | exact I].
  - intros n m u In_ Im Fm. destruct (matches c _); [|destruct In_].
    destruct In_ as [<-|[]].
    apply (select_forest_incl_ids c ch) in Im.
    rewrite find_node_element in Fm.
    destruct (Nat.eqb_spec i m) as [->|_]; [contradiction|].
    destruct (find_in_spec _ _ _ Fm) as [_ Su].
    intros Iu. exact (Ni (Su _ Iu)).
Qed.

(** The selection of a tree holds the selection of each subtree as a
    block. *)
Lemma select_split_forest c a f u :
  Forall (fun t => find_node a t = Some u ->
                   exists pre post, select c t = pre ++ select c u ++ post) f ->
  find_in a f = Some u ->
  exists pre post, flat_map (select c) f = pre ++ select c u ++ post.
Proof.
  induction f as [|x r IH]; intros Hf Fa; [discriminate|].
  apply Forall_cons_iff in Hf as [Hx Hr]. simpl in Fa. simpl.
  destruct (find_node a x) as [y|] eqn:E.
  - injection Fa as ->. destruct (Hx eq_refl) as (pre & post & ->).
    exists pre, (post ++ flat_map (select c) r). rewrite <- !app_assoc. reflexivity.
  - destruct (IH Hr Fa) as (pre & post & ->).
    exists (select c x ++ pre), post. rewrite <- !app_assoc. reflexivity.
Qed.

Lemma select_split c a t u :
  find_node a t = Some u ->
  exists pre post, select c t = pre ++ select c u ++ post.
Proof.
  induction t as [s|s|i nm cl ch IH] using node_forall_ind; try discriminate.
  rewrite find_node_element. destruct (Nat.eqb i a).
  - intros [= <-]. exists [], []. rewrite app_nil_r. reflexivity.
  - intros Fa. destruct (select_split_forest c a ch u IH Fa) as (pre & post & E).
    rewrite select_element, E.
    exists ((if matches c (Element i nm cl ch) then [i] else []) ++ pre), post.
    rewrite <- !app_assoc. reflexivity.
Qed.

Lemma select_within c a f u :
  find_in a f = Some u -> incl (select c u) (flat_map (select c) f).
Proof.
  intros Fa.
  destruct (select_split_forest c a f u) as (pre & post & E); [|exact Fa|].
  - apply Forall_forall. intros t _. apply select_split.
  - rewrite E. apply incl_appr, incl_appl, incl_refl.
Qed.

(** A selected identity is the identity of a matching element. *)
Lemma select_matches_forest c a f u :
  Forall (fun t => NoDup (ids t) -> In a (select c t) ->
                   find_node a t = Some u -> matches c u = true) f ->
  NoDup (flat_map ids f) -> In a (flat_map (select c) f) ->
  find_in a f = Some u -> matches c u = true.
Proof.
  induction f as [|x r IH]; intros Hf N Ia Fa; [discriminate|].
  apply Forall_cons_iff in Hf as [Hx Hr]. simpl in N, Ia, Fa.
  apply NoDup_app_inv in N as (Nx & Nr & Dis).
  destruct (find_node a x) as [y|] eqn:E.
  - injection Fa as ->. apply Hx; auto.
    apply in_app_or in Ia as [Ia|Ia]; [exact Ia|].
    exfalso. apply (Dis a (find_node_In _ _ _ E)).
    apply (select_forest_incl_ids c r), Ia.
  - apply IH; auto.
    apply in_app_or in Ia as [Ia|Ia]; [|exact Ia].
    exfalso. apply (select_incl_ids c x) in Ia. exact (find_node_some _ _ Ia E).
Qed.

Lemma select_matches c a t u :
  NoDup (ids t) -> In a (select c t) ->
  find_node a t = Some u -> matches c u = true.
Proof.
  induction t as [s|s|i nm cl ch IH] using node_forall_ind;
    [intros _ [] | intros _ [] |].
  intros N. simpl in N. apply NoDup_cons_iff in N as [Ni N].
  rewrite select_element, find_node_element. intros Ia.
  destruct (Nat.eqb_spec i a) as [->|Ne].
  - intros [= <-]. destruct (matches c _); [reflexivity|]. exfalso.
    apply Ni, (select_forest_incl_ids c ch), Ia.
  - intros Fa. apply (select_matches_forest c a ch u IH N); [|exact Fa].
    apply in_app_or in Ia as [Ia|Ia]; [|exact Ia].
    destruct (matches c (Element i nm cl ch)); simpl in Ia;
      [destruct Ia as [E|[]]; congruence | destruct Ia].
Qed.

(** Emptying an element that holds no selected element leaves the
    selection as it is. *)
Lemma select_replace_same_forest c n new f name cls old :
  Forall (fun t => NoDup (ids t) ->
                   find_node n t = Some (Element n name cls old) ->
                   select c (replace_children n new t) = select c t) f ->
  NoDup (flat_map ids f) ->
  find_in n f = Some (Element n name cls old) ->
  flat_map (select c) (map (replace_children n new) f) = flat_map (select c) f.
Proof.
  induction f as [|x r IH]; intros Hf N Fn; [discriminate|].
  apply Forall_cons_iff in Hf as [Hx Hr]. simpl in N, Fn. simpl.
  apply NoDup_app_inv in N as (Nx & Nr & Dis).
  destruct (find_node n x) as [y|] eqn:E.
  - injection Fn as ->. rewrite (Hx Nx eq_refl).
    rewrite (replace_forest_absent n new r)
      by (apply Dis, (find_node_In _ _ _ E)).
    reflexivity.
  - rewrite (replace_children_absent n new x)
      by (intros J; exact (find_node_some _ _ J E)).
    rewrite (IH Hr Nr Fn). reflexivity.
Qed.

Lemma select_replace_same c n new t name cls old :
  flat_map (select c) new = [] ->
  flat_map (select c) old = [] ->
  NoDup (ids t) ->
  find_node n t = Some (Element n name cls old) ->
  select c (replace_children n new t) = select c t.
Proof.
  intros Hnew Hold.
  induction t as [s|s|i nm cl ch IH] using node_forall_ind; try discriminate.
  intros N. simpl in N. apply NoDup_cons_iff in N as [Ni N].
  pose proof (matches_replace c n new (Element i nm cl ch)) as Hm.
  rewrite find_node_element. simpl replace_children in *.
  destruct (Nat.eqb_spec i n) as [->|Ne].
  - intros [= -> -> ->]. rewrite !select_element, Hm, Hnew, Hold. reflexivity.
  - intros Fn. rewrite !select_element, Hm. f_equal.
    apply (select_replace_same_forest c n new ch name cls old IH N Fn).
Qed.

(* ================================================================= *)
(** ** Assignment to [textContent] in the document *)

Lemma text_children_ids v : flat_map ids (text_children v) = [].
Proof. destruct v; reflexivity. Qed.

Lemma text_children_select c v : flat_map (select c) (text_children v) = [].
Proof. destruct v; reflexivity. Qed.

Lemma lookup_element n d u :
  lookup n d = Some u -> exists name cls ch, u = Element n name cls ch.
Proof. intros F. apply (find_in_spec _ _ _ F). Qed.

Lemma assign_objects n v d name cls old :
  lookup n d = Some (Element n name cls old) ->
  objects (assign n v d)
  = map (replace_children n (text_children v)) (objects d) ++ old.
Proof.
  intros F. unfold assign, dom_set_textContent. rewrite F. simpl.
  unfold objects. simpl. rewrite map_app, app_assoc. reflexivity.
Qed.

Lemma assign_absent n v d : lookup n d = None -> assign n v d = d.
Proof. intros F. unfold assign, dom_set_textContent. rewrite F. reflexivity. Qed.

Lemma assign_well_formed n v d : well_formed d -> well_formed (assign n v d).
Proof.
  intros W. destruct (lookup n d) as [u|] eqn:F.
  - destruct (lookup_element _ _ _ F) as (name & cls & old & ->).
    unfold well_formed. rewrite (assign_objects _ v _ _ _ _ F), flat_map_app.
    eapply Permutation_NoDup; [|exact W].
    apply ids_replace_perm_forest with (name := name) (cls := cls);
      [apply text_children_ids | exact W | exact F].
  - rewrite assign_absent; assumption.
Qed.

(** The element assigned to holds the new text node and nothing else. *)
Lemma lookup_assign_same n v d name cls old :
  lookup n d = Some (Element n name cls old) ->
  lookup n (assign n v d) = Some (Element n name cls (text_children v)).
Proof.
  intros F. unfold lookup. rewrite (assign_objects _ v _ _ _ _ F), find_in_app.
  rewrite (find_replaced_forest _ _ _ _ _ _ F). reflexivity.
Qed.

(** Every other element is still there, with the replacement done
    inside it when it is above [n]. *)
Lemma lookup_assign_other n v d name cls old m u :
  well_formed d ->
  lookup n d = Some (Element n name cls old) ->
  m <> n ->
  lookup m d = Some u ->
  lookup m (assign n v d) = Some (replace_children n (text_children v) u).
Proof.
  intros W Fn Ne Fm. unfold lookup.
  rewrite (assign_objects _ v _ _ _ _ Fn), find_in_app.
  destruct (relocated_forest_all n (text_children v) (objects d)
              (text_children_ids v) W _ _ _ _ _ Fn Ne Fm) as [A B].
  destruct (in_dec Nat.eq_dec m (flat_map ids old)) as [I|NI].
  - destruct (A I) as [A1 A2]. cbv beta in A1. rewrite A1, A2. f_equal.
    symmetry. apply replace_children_absent.
    pose proof (find_in_NoDup _ _ _ Fn W) as Nn. simpl in Nn.
    apply NoDup_cons_iff in Nn as [Nn _].
    destruct (find_in_spec _ _ _ A2) as [_ Su]. intros Iu. exact (Nn (Su _ Iu)).
  - specialize (B NI). cbv beta in B. rewrite B. reflexivity.
Qed.

(** An element that does not hold [n] is untouched. *)
Lemma lookup_assign_outside n v d m u :
  well_formed d ->
  lookup m d = Some u ->
  ~ In n (ids u) ->
  lookup m (assign n v d) = Some u.
Proof.
  intros W Fm NI. destruct (lookup n d) as [x|] eqn:Fn.
  - destruct (lookup_element _ _ _ Fn) as (name & cls & old & ->).
    assert (Ne : m <> n).
    { intros ->. destruct (lookup_element _ _ _ Fm) as (a & b & c & ->).
      apply NI. simpl; auto. }
    rewrite (lookup_assign_other _ v _ _ _ _ _ _ W Fn Ne Fm).
    rewrite replace_children_absent; auto.
  - rewrite assign_absent; assumption.
Qed.

Lemma lookup_assign_none n v d m :
  well_formed d -> lookup m d = None -> lookup m (assign n v d) = None.
Proof.
  intros W Fm. destruct (lookup n d) as [x|] eqn:Fn.
  - destruct (lookup_element _ _ _ Fn) as (name & cls & old & ->).
    apply find_in_none. rewrite (assign_objects _ v _ _ _ _ Fn), flat_map_app.
    intros I. apply (find_in_some m (objects d)); [|exact Fm].
    eapply Permutation_in; [|exact I]. apply Permutation_sym.
    apply ids_replace_perm_forest with (name := name) (cls := cls);
      [apply text_children_ids | exact W | exact Fn].
  - rewrite assign_absent; assumption.
Qed.

Lemma assign_headings n v d :
  incl (headings_of (assign n v d)) (headings_of d).
Proof.
  unfold assign, dom_set_textContent, headings_of.
  destruct (lookup n d) as [[| |i nm cl old]|]; simpl; try apply incl_refl.
  apply select_replace_forest_incl, text_children_select.
Qed.

Lemma assign_headings_same n v d name cls old :
  well_formed d ->
  lookup n d = Some (Element n name cls old) ->
  flat_map (select heading_selector) old = [] ->
  headings_of (assign n v d) = headings_of d.
Proof.
  intros W F Hold. unfold assign, dom_set_textContent, headings_of.
  rewrite F. cbn [snd doc_children].
  unfold well_formed, objects in W. rewrite flat_map_app in W.
  apply NoDup_app_inv in W as (W & _ & _).
  unfold lookup, objects in F. rewrite find_in_app in F.
  destruct (find_in n (doc_children d)) as [u|] eqn:E.
  - injection F as ->.
    apply (select_replace_same_forest heading_selector n _ _ name cls old);
      [|exact W|exact E].
    apply Forall_forall. intros t _.
    apply select_replace_same; [apply text_children_select | exact Hold].
  - rewrite replace_forest_absent; [reflexivity|].
    intros J. exact (find_in_some _ _ J E).
Qed.

Lemma assign_readyState n v d :
  doc_readyState (assign n v d) = doc_readyState d.
Proof.
  unfold assign, dom_set_textContent.
  destruct (lookup n d) as [[| |i nm cl old]|]; reflexivity.
Qed.

Lemma headings_NoDup d : well_formed d -> NoDup (headings_of d).
Proof.
  intros W. unfold well_formed, objects in W. rewrite flat_map_app in W.
  apply NoDup_app_inv in W as (W & _ & _).
  apply select_forest_NoDup; [|exact W].
  apply Forall_forall. intros t _. apply select_NoDup.
Qed.

Lemma headings_found d n :
  In n (headings_of d) -> lookup n d = find_in n (doc_children d).
Proof.
  intros I. apply (select_forest_incl_ids heading_selector) in I.
  unfold lookup, objects. rewrite find_in_app.
  destruct (find_in n (doc_children d)) eqn:E; [reflexivity|].
  exfalso. exact (find_in_some _ _ I E).
Qed.

Lemma headings_ordered d :
  well_formed d -> tree_ordered (fun m => lookup m d) (headings_of d).
Proof.
  intros W. unfold well_formed, objects in W. rewrite flat_map_app in W.
  apply NoDup_app_inv in W as (W & _ & _).
  apply (tree_ordered_ext (fun m => find_in m (doc_children d))).
  - intros m Im. symmetry. apply headings_found, Im.
  - apply select_forest_ordered; [|exact W].
    apply Forall_forall. intros t _. apply select_ordered.
Qed.

(* ================================================================= *)
(** ** The pass on the document tree *)

Lemma parse_heading_selector :
  parse_selector "h4.api-section-heading-title" = Some heading_selector.
Proof. reflexivity. Qed.

(** One call of the callback on an element of the document. *)
Lemma dom_visit n k d c :
  callback (RNode n) k {| dom := d; console := c |}
  = if phrase_at d n
    then (Normal (S k),
          {| dom := assign n (str "Parameters") d; console := c |})
    else (Normal k, {| dom := d; console := c |}).
Proof.
  rewrite callback_visit. unfold visit, phrase_at, assign.
  cbn [dom console host_textContent host_set_textContent document_Host].
  unfold dom_textContent, dom_set_textContent, has_phrase.
  destruct (lookup n d) as [[s|s|i nm cl ch]|]; reflexivity.
Qed.

Lemma cut_replace n new t : cut (replace_children n new t) = cut t.
Proof. destruct t; try reflexivity. simpl. destruct (Nat.eqb id n); reflexivity. Qed.

Lemma own_state_replace n new t :
  (forall name cls ch, t <> Element n name cls ch) ->
  own_state (replace_children n new t) = own_state t.
Proof.
  destruct t as [s|s|i nm cl ch]; try reflexivity. intros Ne. simpl.
  destruct (Nat.eqb_spec i n) as [->|_]; [exfalso; eapply Ne; reflexivity|].
  simpl. f_equal. rewrite map_map. apply map_ext. intros. apply cut_replace.
Qed.

Lemma phrase_at_found d n :
  phrase_at d n = true -> exists name cls old, lookup n d = Some (Element n name cls old).
Proof.
  unfold phrase_at. destruct (lookup n d) as [u|] eqn:F; [|discriminate].
  intros _. destruct (lookup_element _ _ _ F) as (a & b & c & ->). eauto.
Qed.

Lemma forEach_dom l :
  forall d k c,
    well_formed d -> NoDup l -> tree_ordered (fun m => lookup m d) l ->
    exists d',
      forEach (map RNode l) callback k {| dom := d; console := c |}
      = (Normal (k + List.length (filter (phrase_at d) l)),
         {| dom := d'; console := c |})
      /\ rewritten l d d'.
Proof.
  induction l as [|n post IH]; intros d k c W N O.
  - exists d. simpl. rewrite Nat.add_0_r. split; [reflexivity|].
    unfold rewritten. repeat split; auto; try apply incl_refl.
    + intros n name cls old [].
    + intros m u Fm _. eauto.
  - apply NoDup_cons_iff in N as [Nn N]. destruct O as [A O].
    cbn [map forEach]. unfold bind. rewrite dom_visit.
    destruct (phrase_at d n) eqn:Hp.
    + set (d1 := assign n (str "Parameters") d).
      assert (W1 : well_formed d1) by apply assign_well_formed, W.
      assert (St : forall m, In m post -> lookup m d1 = lookup m d).
      { intros m Im. destruct (lookup m d) as [u|] eqn:Fm.
        - apply lookup_assign_outside; eauto.
        - apply lookup_assign_none; auto. }
      assert (Ph : forall m, In m post -> phrase_at d1 m = phrase_at d m).
      { intros m Im. unfold phrase_at. rewrite St; auto. }
      assert (O1 : tree_ordered (fun m => lookup m d1) post).
      { apply (tree_ordered_ext (fun m => lookup m d)); [|exact O].
        intros m Im. symmetry; auto. }
      destruct (phrase_at_found _ _ Hp) as (nm0 & cl0 & old0 & Fn).
      destruct (IH d1 (S k) c W1 N O1)
        as (d' & E & W' & P1 & P2 & Q & P3 & P4 & P6 & P5).
      exists d'. split.
      { rewrite E. cbn [filter]. rewrite Hp.
        rewrite (filter_ext_in _ _ post Ph). simpl List.length.
        rewrite Nat.add_succ_r. reflexivity. }
      unfold rewritten. split; [exact W'|].
      split; [|split; [|split; [|split; [|split; [|split]]]]].
      * intros n0 name cls old [<-|I0] F0 Hp0.
        -- apply P2.
           ++ apply (lookup_assign_same _ (str "Parameters") _ _ _ _ F0).
           ++ intros n' I' _. simpl. intros [->|[]]. contradiction.
        -- apply (P1 n0 name cls old I0).
           ++ rewrite St; auto.
           ++ rewrite Ph; auto.
      * intros m u Fm Hu. apply P2.
        -- apply lookup_assign_outside; auto. apply Hu; simpl; auto.
        -- intros n' I' Hp'. apply Hu; [simpl; auto|]. rewrite <- Ph; auto.
      * intros m u Fm Hm.
        assert (Ne : m <> n) by (intros ->; apply Hm; simpl; auto).
        pose proof (lookup_assign_other _ (str "Parameters") _ _ _ _ _ _
                      W Fn Ne Fm) as F1.
        destruct (Q m _ F1) as (u' & F' & S').
        -- intros [Im Hpm]. apply Hm. split; [simpl; auto|].
           rewrite <- Ph; auto.
        -- exists u'. split; [exact F'|]. rewrite S'.
           apply own_state_replace. intros a b e ->.
           destruct (lookup_element _ _ _ Fm) as (a' & b' & e' & Eq).
           congruence.
      * intros m Fm. apply P3, lookup_assign_none; auto.
      * eapply incl_tran; [exact P4 | apply assign_headings].
      * intros Hh. rewrite P6.
        -- apply (assign_headings_same _ _ _ _ _ _ W Fn).
           apply (Hh n nm0 cl0 old0); simpl; auto.
        -- intros n' name cls old I' Hp' F'. apply (Hh n' name cls old).
           ++ simpl; auto.
           ++ rewrite <- Ph; auto.
           ++ rewrite <- St; auto.
      * rewrite P5. apply assign_readyState.
    + destruct (IH d k c W N O)
        as (d' & E & W' & P1 & P2 & Q & P3 & P4 & P6 & P5).
      exists d'. split.
      { rewrite E. cbn [filter]. rewrite Hp. reflexivity. }
      unfold rewritten. split; [exact W'|].
      split; [|split; [|split; [|split; [|split; [|split]]]]]; auto.
      * intros n0 name cls old [<-|I0] F0 Hp0; [congruence|].
        apply (P1 n0 name cls old I0); auto.
      * intros m u Fm Hu. apply P2; auto. intros n' I'. apply Hu. simpl; auto.
      * intros m u Fm Hm. apply Q; auto. intros [Im Hpm]. apply Hm.
        split; [simpl; auto | exact Hpm].
      * intros Hh. apply P6. intros n' name cls old I'. apply Hh. simpl; auto.
Qed.

(** A pass over a well-formed document completes, logs the number of
    headings that had the phrase, and leaves the document [rewritten]. *)
Lemma pass_dom d c :
  well_formed d ->
  exists d',
    replaceQueryParameters {| dom := d; console := c |}
    = (Normal tt,
       {| dom := d';
          console :=
            c ++ [count_record (List.length (filter (phrase_at d) (headings_of d)))] |})
    /\ rewritten (headings_of d) d d'.
Proof.
  intros W.
  destruct (forEach_dom (headings_of d) d 0 c W (headings_NoDup d W)
              (headings_ordered d W)) as (d' & E & R).
  exists d'. split; [|exact R].
  unfold replaceQueryParameters, try_catch, scan_and_replace, bind, querySelectorAll.
  cbn [dom host_querySelectorAll document_Host]. unfold dom_querySelectorAll.
  rewrite parse_heading_selector. fold (headings_of d). rewrite E. reflexivity.
Qed.

(* ================================================================= *)
(** ** The example documents *)

Ltac concrete_NoDup :=
  vm_compute;
  repeat (apply NoDup_cons; [simpl; intuition discriminate|]);
  apply NoDup_nil.

Lemma three_headings_well_formed : well_formed three_headings.
Proof. unfold well_formed. concrete_NoDup. Qed.

Lemma nested_headings_well_formed : well_formed nested_headings.
Proof. unfold well_formed. concrete_NoDup. Qed.

Lemma near_misses_well_formed : well_formed near_misses.
Proof. unfold well_formed. concrete_NoDup. Qed.

Lemma three_headings_not_nested : no_nested_headings three_headings.
Proof.
  intros n u m Hn Hu Hm Hi. vm_compute in Hn.
  destruct Hn as [<-|[<-|[<-|[]]]]; vm_compute in Hu; injection Hu as <-;
    vm_compute in Hi; destruct Hi as [<-|[]]; reflexivity.
Qed.

(* ================================================================= *)
(** ** What a pass leaves of a document *)

Lemma phrase_at_text d n :
  phrase_at d n = true
  <-> exists s, dom_textContent n d = VString s
                /\ trim s = str "Query Parameters".
Proof.
  unfold phrase_at, dom_textContent, has_phrase.
  destruct (lookup n d) as [[s|s|i nm cl ch]|]; cbn [node_text].
  - split; [discriminate | intros (s' & [=] & _)].
  - split; [discriminate | intros (s' & [=] & _)].
  - rewrite jsstring_eqb_eq. split.
    + intros E. eexists. split; [reflexivity | exact E].
    + intros (s' & [= <-] & E). exact E.
  - split; [discriminate | intros (s' & [=] & _)].
Qed.

Lemma phrase_at_false_text d n s :
  phrase_at d n = false ->
  dom_textContent n d = VString s -> trim s <> str "Query Parameters".
Proof.
  intros Hp Ht E. assert (phrase_at d n = true) by (apply phrase_at_text; eauto).
  congruence.
Qed.

Lemma headings_lookup d n :
  In n (headings_of d) ->
  exists name cls ch, lookup n d = Some (Element n name cls ch).
Proof.
  intros I. destruct (lookup n d) as [u|] eqn:F.
  - destruct (lookup_element _ _ _ F) as (a & b & c & ->). eauto.
  - exfalso. rewrite (headings_found _ _ I) in F.
    apply (select_forest_incl_ids heading_selector) in I.
    exact (find_in_some _ _ I F).
Qed.

Lemma pass_result_dom (w : world document) :
  well_formed (dom w) ->
  replaceQueryParameters w
  = (Normal tt,
     {| dom := dom (pass_result w);
        console :=
          console w
          ++ [count_record
                (List.length (filter (phrase_at (dom w)) (headings_of (dom w))))] |})
  /\ rewritten (headings_of (dom w)) (dom w) (dom (pass_result w)).
Proof.
  intros W. destruct w as [d c]. cbn [dom console] in *.
  destruct (pass_dom d c W) as (d' & E & R).
  unfold pass_result. rewrite E. split; [reflexivity | exact R].
Qed.

(** Without nesting no heading of the document has the phrase after
    the pass. *)
Lemma pass_clears_flat (w : world document) :
  well_formed (dom w) ->
  no_nested_headings (dom w) ->
  forall n, In n (headings_of (dom (pass_result w))) ->
            phrase_at (dom (pass_result w)) n = false.
Proof.
  intros W Flat n I.
  destruct (pass_result_dom w W) as [_ (W' & P1 & P2 & _ & _ & P4 & _)].
  apply P4 in I. destruct (headings_lookup _ _ I) as (nm & cl & ch & F).
  destruct (phrase_at (dom w) n) eqn:Hp.
  - unfold phrase_at. rewrite (P1 n nm cl ch I F Hp). reflexivity.
  - unfold phrase_at in *. rewrite (P2 n _ F); [rewrite F in Hp; exact Hp|].
    intros n' I' Hp' Iu. rewrite (Flat n _ n' I F I' Iu) in Hp'.
    congruence.
Qed.

(** A pass over a document in which no heading has the phrase changes
    nothing and reports zero. *)
Lemma forEach_dom_idle l :
  forall d k c,
    (forall n, In n l -> phrase_at d n = false) ->
    forEach (map RNode l) callback k {| dom := d; console := c |}
    = (Normal k, {| dom := d; console := c |}).
Proof.
  induction l as [|n post IH]; intros d k c Hl; [reflexivity|].
  cbn [map forEach]. unfold bind. rewrite dom_visit, Hl by (simpl; auto).
  apply IH. intros m Im. apply Hl. simpl; auto.
Qed.

Lemma pass_idle (w : world document) :
  (forall n, In n (headings_of (dom w)) -> phrase_at (dom w) n = false) ->
  replaceQueryParameters w
  = (Normal tt, {| dom := dom w; console := console w ++ [count_record 0] |}).
Proof.
  intros Hl. destruct w as [d c]. cbn [dom console] in *.
  unfold replaceQueryParameters, try_catch, scan_and_replace, bind, querySelectorAll.
  cbn [dom host_querySelectorAll document_Host]. unfold dom_querySelectorAll.
  rewrite parse_heading_selector. fold (headings_of d).
  rewrite (forEach_dom_idle _ d 0 c Hl). reflexivity.
Qed.

Lemma text_of_rewritten d n name cls :
  lookup n d = Some (Element n name cls [Text (str "Parameters")]) ->
  dom_textContent n d = VString (str "Parameters").
Proof. intros F. unfold dom_textContent. rewrite F. reflexivity. Qed.

(** An element found inside a found element is found from the top. *)
Lemma find_within_lift b m f u :
  Forall (fun t => NoDup (ids t) -> find_node b t = Some u ->
                   In m (ids u) -> find_node m t = find_node m u) f ->
  NoDup (flat_map ids f) -> find_in b f = Some u ->
  In m (ids u) -> find_in m f = find_node m u.
Proof.
  induction f as [|c rest IH]; intros Hf N Fb Im; [discriminate|].
  apply Forall_cons_iff in Hf as [Hc Hrest]. simpl in N, Fb. simpl.
  apply NoDup_app_inv in N as (Nc & Nr & Dis).
  destruct (find_node b c) as [x|] eqn:Eb.
  - injection Fb as ->. rewrite (Hc Nc eq_refl Im).
    destruct (find_node m u) eqn:Em; [reflexivity|].
    exfalso. exact (find_node_some _ _ Im Em).
  - destruct (find_in_spec _ _ _ Fb) as [_ Su].
    rewrite find_node_none by (intros Ic; exact (Dis _ Ic (Su _ Im))).
    apply IH; assumption.
Qed.

Lemma find_within_tree b m t u :
  NoDup (ids t) -> find_node b t = Some u ->
  In m (ids u) -> find_node m t = find_node m u.
Proof.
  induction t as [s|s|i nm cl ch IH] using node_forall_ind; try discriminate.
  intros N. rewrite find_node_element.
  destruct (Nat.eqb_spec i b) as [->|Nib].
  - intros [= <-] _. reflexivity.
  - intros Fb Im. simpl in N. apply NoDup_cons_iff in N as [Ni N].
    destruct (find_in_spec _ _ _ Fb) as [_ Su].
    rewrite find_node_element.
    destruct (Nat.eqb_spec i m) as [->|_]; [exfalso; exact (Ni (Su _ Im))|].
    apply (find_within_lift b m ch u IH N Fb Im).
Qed.

Lemma lookup_within d b m u :
  well_formed d -> lookup b d = Some u -> In m (ids u) ->
  lookup m d = find_node m u.
Proof.
  intros W Fb Im. apply (find_within_lift b m (objects d) u); auto.
  apply Forall_forall. intros t _. apply find_within_tree.
Qed.

(** The text of an element is at least as long as the text of an
    element inside it. *)
Lemma descendant_text_length m t x :
  find_node m t = Some x ->
  List.length (descendant_text x) <= List.length (descendant_text t).
Proof.
  induction t as [s|s|i nm cl ch IH] using node_forall_ind; try discriminate.
  rewrite find_node_element. destruct (Nat.eqb i m).
  - intros [= <-]. apply Nat.le_refl.
  - cbn [descendant_text].
    induction ch as [|c r IHr]; simpl; [discriminate|].
    apply Forall_cons_iff in IH as [IHc IH]. rewrite length_app.
    destruct (find_node m c) eqn:E.
    + intros [= ->]. specialize (IHc eq_refl). lia.
    + intros F. specialize (IHr IH F). lia.
Qed.

(** And it holds every code unit of that text. *)
Lemma descendant_text_incl m t x :
  find_node m t = Some x ->
  incl (descendant_text x) (descendant_text t).
Proof.
  induction t as [s|s|i nm cl ch IH] using node_forall_ind; try discriminate.
  rewrite find_node_element. destruct (Nat.eqb i m).
  - intros [= <-]. apply incl_refl.
  - cbn [descendant_text].
    induction ch as [|c r IHr]; simpl; [discriminate|].
    apply Forall_cons_iff in IH as [IHc IH].
    destruct (find_node m c) eqn:E.
    + intros [= ->]. apply incl_appl, IHc, eq_refl.
    + intros F. apply incl_appr, IHr; assumption.
Qed.

(** The selected headings below a selected heading. *)
Lemma headings_below d n name cls old m :
  well_formed d ->
  In n (headings_of d) ->
  lookup n d = Some (Element n name cls old) ->
  In m (flat_map (select heading_selector) old) ->
  In m (headings_of d) /\ m <> n /\ In m (flat_map ids old).
Proof.
  intros W I F Im.
  pose proof (select_forest_incl_ids heading_selector old m Im) as Ii.
  split; [|split; [|exact Ii]].
  - rewrite (headings_found _ _ I) in F.
    apply (select_within heading_selector _ _ _ F).
    rewrite select_element. apply in_or_app. right. exact Im.
  - intros ->. pose proof (find_in_NoDup _ _ _ F W) as N. simpl in N.
    apply NoDup_cons_iff in N as [N _]. exact (N Ii).
Qed.

Lemma textContent_lookup d n s :
  dom_textContent n d = VString s ->
  exists name cls ch,
    lookup n d = Some (Element n name cls ch)
    /\ descendant_text (Element n name cls ch) = s.
Proof.
  unfold dom_textContent. destruct (lookup n d) as [u|] eqn:F; [|discriminate].
  destruct (lookup_element _ _ _ F) as (a & b & c & ->).
  intros [= <-]. eauto.
Qed.

(* ================================================================= *)
(** ** The document a pass leaves is the rewritten tree *)

(** The children of the document after the callback ran over a list:
    the assignments of the entries that had the phrase, in order. *)
Lemma forEach_dom_children l :
  forall d k c,
    well_formed d -> NoDup l -> tree_ordered (fun m => lookup m d) l ->
    doc_children (dom (snd (forEach (map RNode l) callback k
                              {| dom := d; console := c |})))
    = map (replace_all (filter (phrase_at d) l)) (doc_children d).
Proof.
  induction l as [|n post IH]; intros d k c W N O.
  - simpl. unfold replace_all. simpl. symmetry. apply map_id.
  - apply NoDup_cons_iff in N as [Nn N]. destruct O as [A O].
    cbn [map forEach]. unfold bind. rewrite dom_visit. cbn [filter].
    destruct (phrase_at d n) eqn:Hp.
    + set (d1 := assign n (str "Parameters") d).
      assert (W1 : well_formed d1) by apply assign_well_formed, W.
      assert (St : forall m, In m post -> lookup m d1 = lookup m d).
      { intros m Im. destruct (lookup m d) as [u|] eqn:Fm.
        - apply lookup_assign_outside; eauto.
        - apply lookup_assign_none; auto. }
      assert (Ph : forall m, In m post -> phrase_at d1 m = phrase_at d m).
      { intros m Im. unfold phrase_at. rewrite St; auto. }
      assert (O1 : tree_ordered (fun m => lookup m d1) post).
      { apply (tree_ordered_ext (fun m => lookup m d)); [|exact O].
        intros m Im. symmetry; auto. }
      rewrite (IH d1 (S k) c W1 N O1), (filter_ext_in _ _ post Ph).
      destruct (phrase_at_found _ _ Hp) as (nm & cl & old & Fn).
      unfold d1, assign, dom_set_textContent. rewrite Fn.
      cbn [snd doc_children text_children str map list_ascii_of_string].
      rewrite map_map. reflexivity.
    + apply IH; assumption.
Qed.

Lemma replace_all_absent ns t :
  (forall n, In n ns -> ~ In n (ids t)) -> replace_all ns t = t.
Proof.
  unfold replace_all. revert t; induction ns as [|n ns IH]; intros t Hn;
    [reflexivity|].
  simpl. rewrite replace_children_absent by (apply Hn; simpl; auto).
  apply IH. intros m Im. apply Hn. simpl; auto.
Qed.

Lemma replace_all_app a b t :
  replace_all (a ++ b) t = replace_all b (replace_all a t).
Proof. unfold replace_all. apply fold_left_app. Qed.

Lemma replace_all_ids ns t : incl (ids (replace_all ns t)) (ids t).
Proof.
  unfold replace_all. revert t; induction ns as [|n ns IH]; intros t;
    [apply incl_refl|].
  simpl. eapply incl_tran; [apply IH|]. apply ids_replace_incl. reflexivity.
Qed.

Lemma replace_all_element ns i name cls ch :
  ~ In i ns ->
  replace_all ns (Element i name cls ch)
  = Element i name cls (map (replace_all ns) ch).
Proof.
  unfold replace_all. revert ch; induction ns as [|n ns IH]; intros ch Ni.
  - simpl. rewrite map_id. reflexivity.
  - simpl. destruct (Nat.eqb_spec i n) as [->|Ne]; [exfalso; apply Ni; simpl; auto|].
    rewrite IH by (intros J; apply Ni; simpl; auto).
    rewrite map_map. reflexivity.
Qed.

Lemma phrase_in_ext find find' l :
  (forall n, In n l -> find n = find' n) ->
  filter (phrase_in find) l = filter (phrase_in find') l.
Proof.
  intros E. apply filter_ext_in. intros n I. unfold phrase_in. rewrite E; auto.
Qed.

(** The assignments a pass makes in a forest, done tree by tree, are
    the rewriting of each tree. *)
Lemma rewrite_forest_lift f :
  Forall (fun t =>
            NoDup (ids t) ->
            replace_all (filter (phrase_in (fun n => find_node n t))
                           (select heading_selector t)) t
            = rewrite_tree t) f ->
  NoDup (flat_map ids f) ->
  map (replace_all (filter (phrase_in (fun n => find_in n f))
                      (flat_map (select heading_selector) f))) f
  = map rewrite_tree f.
Proof.
  induction f as [|c rest IH]; intros Hf N; [reflexivity|].
  apply Forall_cons_iff in Hf as [Hc Hrest]. simpl in N.
  apply NoDup_app_inv in N as (Nc & Nr & Dis).
  cbn [flat_map map]. rewrite filter_app.
  assert (Ec : filter (phrase_in (fun n => find_in n (c :: rest)))
                 (select heading_selector c)
               = filter (phrase_in (fun n => find_node n c))
                   (select heading_selector c)).
  { apply phrase_in_ext. intros n I. simpl.
    apply (select_incl_ids heading_selector c) in I.
    destruct (find_node n c) eqn:E; [reflexivity|].
    exfalso. exact (find_node_some _ _ I E). }
  assert (Er : filter (phrase_in (fun n => find_in n (c :: rest)))
                 (flat_map (select heading_selector) rest)
               = filter (phrase_in (fun n => find_in n rest))
                   (flat_map (select heading_selector) rest)).
  { apply phrase_in_ext. intros n I. simpl.
    apply (select_forest_incl_ids heading_selector rest) in I.
    rewrite find_node_none; [reflexivity|]. intros J. exact (Dis _ J I). }
  rewrite Ec, Er. f_equal.
  - rewrite replace_all_app, (Hc Nc). apply replace_all_absent.
    intros n I J. apply filter_In in I as [I _].
    apply (select_forest_incl_ids heading_selector rest) in I.
    rewrite <- (Hc Nc) in J. apply replace_all_ids in J. exact (Dis _ J I).
  - rewrite <- (IH Hrest Nr). apply map_ext_in. intros t It.
    rewrite replace_all_app. f_equal. apply replace_all_absent.
    intros n I J. apply filter_In in I as [I _].
    apply (select_incl_ids heading_selector c) in I.
    apply (Dis n I). apply in_flat_map. exists t. auto.
Qed.

Lemma rewrite_tree_replace_all t :
  NoDup (ids t) ->
  replace_all (filter (phrase_in (fun n => find_node n t))
                 (select heading_selector t)) t
  = rewrite_tree t.
Proof.
  induction t as [s|s|i nm cl ch IH] using node_forall_ind;
    try (intros _; reflexivity).
  intros N. simpl in N. apply NoDup_cons_iff in N as [Ni N].
  pose proof (rewrite_forest_lift ch IH N) as Hch.
  assert (Ech : filter (phrase_in (fun n => find_node n (Element i nm cl ch)))
                  (flat_map (select heading_selector) ch)
                = filter (phrase_in (fun n => find_in n ch))
                    (flat_map (select heading_selector) ch)).
  { apply phrase_in_ext. intros n I.
    apply (select_forest_incl_ids heading_selector ch) in I.
    rewrite find_node_element.
    destruct (Nat.eqb_spec i n) as [->|_]; [contradiction|reflexivity]. }
  assert (Nin : ~ In i (filter (phrase_in (fun n => find_in n ch))
                          (flat_map (select heading_selector) ch))).
  { intros J. apply filter_In in J as [J _].
    apply Ni, (select_forest_incl_ids heading_selector ch), J. }
  rewrite select_element, filter_app, Ech.
  cbn [rewrite_tree]. unfold is_target.
  destruct (matches heading_selector (Element i nm cl ch)) eqn:M; cbn [andb filter].
  - unfold phrase_in at 1. rewrite find_node_element, Nat.eqb_refl.
    destruct (has_phrase (Element i nm cl ch)) eqn:Hp.
    + cbn [app]. unfold replace_all at 1. cbn [fold_left replace_children].
      rewrite Nat.eqb_refl. fold (replace_all
        (filter (phrase_in (fun n => find_in n ch))
           (flat_map (select heading_selector) ch))
        (Element i nm cl [Text (str "Parameters")])).
      apply replace_all_absent. intros n I [<-|[]]. exact (Nin I).
    + cbn [app]. rewrite replace_all_element by exact Nin.
      rewrite Hch. reflexivity.
  - cbn [app]. rewrite replace_all_element by exact Nin.
    rewrite Hch. reflexivity.
Qed.

(** The document after a pass, node for node. *)
Lemma pass_children (w : world document) :
  well_formed (dom w) ->
  doc_children (dom (pass_result w))
  = map rewrite_tree (doc_children (dom w)).
Proof.
  intros W. destruct w as [d c]. cbn [dom] in *.
  destruct (forEach_dom (headings_of d) d 0 c W (headings_NoDup d W)
              (headings_ordered d W)) as (d' & E & _).
  pose proof (forEach_dom_children (headings_of d) d 0 c W
                (headings_NoDup d W) (headings_ordered d W)) as B.
  rewrite E in B. cbn [snd dom] in B.
  assert (R : dom (pass_result {| dom := d; console := c |}) = d').
  { unfold pass_result, replaceQueryParameters, try_catch, scan_and_replace,
      bind, querySelectorAll.
    cbn [dom host_querySelectorAll document_Host]. unfold dom_querySelectorAll.
    rewrite parse_heading_selector. fold (headings_of d). rewrite E.
    reflexivity. }
  rewrite R, B.
  assert (Ep : filter (phrase_at d) (headings_of d)
               = filter (phrase_in (fun n => find_in n (doc_children d)))
                   (flat_map (select heading_selector) (doc_children d))).
  { apply filter_ext_in. intros n I. unfold phrase_at, phrase_in.
    rewrite (headings_found _ _ I). reflexivity. }
  rewrite Ep. apply rewrite_forest_lift.
  - apply Forall_forall. intros t _. apply rewrite_tree_replace_all.
  - unfold well_formed, objects in W. rewrite flat_map_app in W.
    apply NoDup_app_inv in W as (W & _ & _). exact W.
Qed.

Lemma rewrite_tree_element i name cls ch :
  rewrite_tree (Element i name cls ch)
  = if is_target (Element i name cls ch)
    then Element i name cls [Text (str "Parameters")]
    else Element i name cls (map rewrite_tree ch).
Proof. reflexivity. Qed.

Lemma matches_rewrite c t : matches c (rewrite_tree t) = matches c t.
Proof.
  destruct t as [s|s|i nm cl ch]; try reflexivity.
  rewrite rewrite_tree_element. destruct (is_target _); reflexivity.
Qed.

Lemma rewrite_ids_incl t : incl (ids (rewrite_tree t)) (ids t).
Proof.
  induction t as [s|s|i nm cl ch IH] using node_forall_ind;
    try apply incl_refl.
  rewrite rewrite_tree_element. destruct (is_target _).
  - intros x [<-|[]]. simpl; auto.
  - simpl. apply incl_cons; [simpl; auto|]. apply incl_tl.
    induction ch as [|c r IHr]; simpl; [apply incl_refl|].
    apply Forall_cons_iff in IH as [IHc IH].
    apply incl_app; [apply incl_appl, IHc | apply incl_appr, IHr, IH].
Qed.

Lemma rewrite_forest_ids_incl f :
  incl (flat_map ids (map rewrite_tree f)) (flat_map ids f).
Proof.
  induction f as [|c r IH]; simpl; [apply incl_refl|].
  apply incl_app; [apply incl_appl, rewrite_ids_incl | apply incl_appr, IH].
Qed.

(** What was below a target is not in the rewritten tree. *)
Lemma rewrite_out_lift f h u n :
  Forall (fun t => NoDup (ids t) -> find_node h t = Some u ->
                   is_target u = true -> In n (ids u) -> n <> h ->
                   ~ In n (ids (rewrite_tree t))) f ->
  NoDup (flat_map ids f) -> find_in h f = Some u ->
  is_target u = true -> In n (ids u) -> n <> h ->
  ~ In n (flat_map ids (map rewrite_tree f)).
Proof.
  induction f as [|c rest IH]; intros Hf N Fh Tu Iu Ne; [discriminate|].
  apply Forall_cons_iff in Hf as [Hc Hrest]. simpl in N, Fh.
  apply NoDup_app_inv in N as (Nc & Nr & Dis). simpl. intros J.
  apply in_app_or in J.
  destruct (find_node h c) as [x|] eqn:E.
  - injection Fh as ->. destruct (find_node_spec _ _ _ E) as [_ Su].
    destruct J as [J|J].
    + exact (Hc Nc eq_refl Tu Iu Ne J).
    + apply rewrite_forest_ids_incl in J. exact (Dis _ (Su _ Iu) J).
  - destruct (find_in_spec _ _ _ Fh) as [_ Su]. destruct J as [J|J].
    + apply rewrite_ids_incl in J. exact (Dis _ J (Su _ Iu)).
    + exact (IH Hrest Nr Fh Tu Iu Ne J).
Qed.

Lemma rewrite_out t h u n :
  NoDup (ids t) -> find_node h t = Some u ->
  is_target u = true -> In n (ids u) -> n <> h ->
  ~ In n (ids (rewrite_tree t)).
Proof.
  induction t as [s|s|i nm cl ch IH] using node_forall_ind; try discriminate.
  intros N. simpl in N. apply NoDup_cons_iff in N as [Ni N].
  rewrite find_node_element, rewrite_tree_element.
  destruct (Nat.eqb_spec i h) as [->|Nih].
  - intros [= <-] Tu _ Ne. rewrite Tu. intros [E|[]]. congruence.
  - intros Fh Tu Iu Ne. destruct (find_in_spec _ _ _ Fh) as [_ Su].
    assert (Nni : n <> i) by (intros ->; exact (Ni (Su _ Iu))).
    destruct (is_target (Element i nm cl ch)).
    + intros [E|[]]. congruence.
    + simpl. intros [E|J]; [congruence|].
      exact (rewrite_out_lift ch h u n IH N Fh Tu Iu Ne J).
Qed.

(** What was not below a target is. *)
Lemma rewrite_in_lift f n :
  Forall (fun t => NoDup (ids t) -> In n (ids t) ->
                   (forall h u, find_node h t = Some u -> is_target u = true ->
                                In n (ids u) -> n = h) ->
                   In n (ids (rewrite_tree t))) f ->
  NoDup (flat_map ids f) -> In n (flat_map ids f) ->
  (forall h u, find_in h f = Some u -> is_target u = true ->
               In n (ids u) -> n = h) ->
  In n (flat_map ids (map rewrite_tree f)).
Proof.
  induction f as [|c rest IH]; intros Hf N I Hh; [destruct I|].
  apply Forall_cons_iff in Hf as [Hc Hrest]. simpl in N, I.
  apply NoDup_app_inv in N as (Nc & Nr & Dis). simpl.
  apply in_or_app. apply in_app_or in I as [I|I].
  - left. apply (Hc Nc I). intros h u Fh. apply Hh. simpl. rewrite Fh.
    reflexivity.
  - right. apply (IH Hrest Nr I). intros h u Fh. apply Hh. simpl.
    rewrite find_node_none; [exact Fh|].
    intros J. exact (Dis _ J (find_in_In _ _ _ Fh)).
Qed.

Lemma rewrite_in t n :
  NoDup (ids t) -> In n (ids t) ->
  (forall h u, find_node h t = Some u -> is_target u = true ->
               In n (ids u) -> n = h) ->
  In n (ids (rewrite_tree t)).
Proof.
  induction t as [s|s|i nm cl ch IH] using node_forall_ind;
    [intros _ [] | intros _ [] |].
  intros N I Hh. simpl in N. apply NoDup_cons_iff in N as [Ni N].
  rewrite rewrite_tree_element.
  destruct (is_target (Element i nm cl ch)) eqn:T.
  - left. symmetry. apply (Hh i (Element i nm cl ch)); auto.
    rewrite find_node_element, Nat.eqb_refl. reflexivity.
  - simpl. destruct I as [E|I]; [auto|]. right.
    apply (rewrite_in_lift ch n IH N I). intros h u Fh. apply Hh.
    rewrite find_node_element.
    destruct (Nat.eqb_spec i h) as [->|_]; [|exact Fh].
    exfalso. exact (Ni (find_in_In _ _ _ Fh)).
Qed.

(** A selected element that is in the rewritten tree is selected in it. *)
Lemma rewrite_select_lift c f n :
  Forall (fun t => NoDup (ids t) -> In n (select c t) ->
                   In n (ids (rewrite_tree t)) ->
                   In n (select c (rewrite_tree t))) f ->
  NoDup (flat_map ids f) -> In n (flat_map (select c) f) ->
  In n (flat_map ids (map rewrite_tree f)) ->
  In n (flat_map (select c) (map rewrite_tree f)).
Proof.
  induction f as [|x rest IH]; intros Hf N Is Ii; [destruct Is|].
  apply Forall_cons_iff in Hf as [Hx Hrest]. simpl in N, Is, Ii.
  apply NoDup_app_inv in N as (Nx & Nr & Dis). simpl.
  apply in_or_app. apply in_app_or in Is. apply in_app_or in Ii.
  destruct Is as [Is|Is].
  - left. apply (Hx Nx Is). destruct Ii as [Ii|Ii]; [exact Ii|].
    exfalso. apply rewrite_forest_ids_incl in Ii.
    exact (Dis _ (select_incl_ids c x n Is) Ii).
  - right. apply (IH Hrest Nr Is). destruct Ii as [Ii|Ii]; [|exact Ii].
    exfalso. apply rewrite_ids_incl in Ii.
    exact (Dis _ Ii (select_forest_incl_ids c rest n Is)).
Qed.

Lemma rewrite_select c t n :
  NoDup (ids t) -> In n (select c t) -> In n (ids (rewrite_tree t)) ->
  In n (select c (rewrite_tree t)).
Proof.
  induction t as [s|s|i nm cl ch IH] using node_forall_ind;
    [intros _ [] | intros _ [] |].
  intros N Is Ii. simpl in N. apply NoDup_cons_iff in N as [Ni N].
  pose proof (matches_rewrite c (Element i nm cl ch)) as M.
  rewrite select_element in Is. rewrite rewrite_tree_element in *.
  apply in_app_or in Is.
  destruct (is_target (Element i nm cl ch)).
  - rewrite select_element, M. apply in_or_app. left.
    destruct Ii as [<-|[]]. destruct Is as [Is|Is]; [exact Is|].
    exfalso. exact (Ni (select_forest_incl_ids c ch _ Is)).
  - rewrite select_element, M. apply in_or_app.
    destruct Is as [Is|Is]; [left; exact Is | right].
    apply (rewrite_select_lift c ch n IH N Is).
    simpl in Ii. destruct Ii as [<-|Ii]; [|exact Ii].
    exfalso. exact (Ni (select_forest_incl_ids c ch _ Is)).
Qed.

Lemma select_complete c h f u :
  find_in h f = Some u -> matches c u = true -> In h (flat_map (select c) f).
Proof.
  intros F M. apply (select_within c h f u F).
  destruct (find_in_spec _ _ _ F) as [(nm & cl & ch & ->) _].
  rewrite select_element, M. simpl; auto.
Qed.

Lemma document_part d :
  well_formed d -> NoDup (flat_map ids (doc_children d)).
Proof.
  unfold well_formed, objects. rewrite flat_map_app. intros W.
  apply NoDup_app_inv in W as (W & _ & _). exact W.
Qed.

Lemma lookup_in_document d h u :
  find_in h (doc_children d) = Some u -> lookup h d = Some u.
Proof. intros F. unfold lookup, objects. rewrite find_in_app, F. reflexivity. Qed.

(** An element is in the document after a pass exactly when it was in
    it and not below a selected heading that had the phrase. *)
Lemma pass_in_document (w : world document) (n : nat) :
  well_formed (dom w) ->
  in_document (dom (pass_result w)) n
  <-> in_document (dom w) n /\ ~ below_target (dom w) n.
Proof.
  intros W. unfold in_document. rewrite (pass_children w W).
  pose proof (document_part _ W) as N. split.
  - intros I. split; [apply rewrite_forest_ids_incl, I|].
    intros (h & u & Ih & Fh & Hp & Iu & Ne).
    rewrite (headings_found _ _ Ih) in Fh.
    revert I. apply (rewrite_out_lift (doc_children (dom w)) h u n);
      auto.
    + apply Forall_forall. intros t _. apply rewrite_out.
    + unfold is_target. apply andb_true_iff. split.
      * apply (select_matches_forest heading_selector h (doc_children (dom w)));
          auto.
        apply Forall_forall. intros t _. apply select_matches.
      * unfold phrase_at in Hp. rewrite (lookup_in_document _ _ _ Fh) in Hp.
        exact Hp.
  - intros [I Nb]. apply rewrite_in_lift; auto.
    + apply Forall_forall. intros t _. apply rewrite_in.
    + intros h u Fh Tu Iu. destruct (Nat.eq_dec n h) as [E|Ne]; [exact E|].
      exfalso. apply Nb. exists h, u.
      unfold is_target in Tu. apply andb_true_iff in Tu as [M Hp].
      split; [exact (select_complete _ _ _ _ Fh M)|].
      split; [exact (lookup_in_document _ _ _ Fh)|].
      split; [|auto].
      unfold phrase_at. rewrite (lookup_in_document _ _ _ Fh). exact Hp.
Qed.

(** A selected heading stays a selected heading of the document unless
    it was below a selected heading that had the phrase. *)
Lemma pass_keeps_heading (w : world document) (n : nat) :
  well_formed (dom w) ->
  In n (headings_of (dom w)) -> ~ below_target (dom w) n ->
  In n (headings_of (dom (pass_result w))).
Proof.
  intros W I Nb. unfold headings_of. rewrite (pass_children w W).
  apply rewrite_select_lift.
  - apply Forall_forall. intros t _. apply rewrite_select.
  - apply document_part, W.
  - exact I.
  - rewrite <- (pass_children w W). apply (pass_in_document w n W). split;
      [|exact Nb].
    apply (select_forest_incl_ids heading_selector), I.
Qed.

(** What a pass leaves of a selected heading without the phrase. *)
Lemma pass_heading_kept (w : world document) (n : nat) :
  well_formed (dom w) ->
  In n (headings_of (dom w)) -> phrase_at (dom w) n = false ->
  heading_kept (dom w) (dom (pass_result w)) n.
Proof.
  intros W I Hp u F.
  destruct (pass_result_dom w W) as [_ (_ & _ & P2 & Q & _)].
  split; [|split].
  - apply (Q n u F). intros [_ K]. congruence.
  - apply pass_keeps_heading; assumption.
  - intros Hu. pose proof (P2 n u F Hu) as F'. split; [exact F'|].
    unfold dom_textContent. rewrite F, F'. reflexivity.
Qed.

(* ================================================================= *)
(** ** Claims about the document a pass leaves *)

(** C1, as stated, fails on a heading nested in a heading: the outer
    heading of [nested_headings] reads "Query Query Parameters" when
    it is visited, and "Query Parameters" once the inner one was
    rewritten. *)
Lemma nested_heading_left_with_phrase :
  ~ (forall w : world document,
        well_formed (dom w) ->
        forall n s,
          In n (headings_of (dom (pass_result w))) ->
          dom_textContent n (dom (pass_result w)) = VString s ->
          trim s <> str "Query Parameters").
Proof.
  intros K.
  apply (K (on_load nested_headings) nested_headings_well_formed
           2 (str "Query Parameters")).
  - vm_compute. auto.
  - reflexivity.
  - reflexivity.
Qed.

(** C1, amended: a pass over a well-formed document returns normally;
    every selected heading whose trimmed text was "Query Parameters"
    when the pass scanned has text content exactly "Parameters"
    afterwards; and when no selected heading lies inside another one,
    no selected heading of the document trims to "Query Parameters"
    afterwards. *)
Theorem headings_rewritten (w : world document) :
  well_formed (dom w) ->
  fst (replaceQueryParameters w) = Normal tt
  /\ (forall n s,
        In n (headings_of (dom w)) ->
        dom_textContent n (dom w) = VString s ->
        trim s = str "Query Parameters" ->
        dom_textContent n (dom (pass_result w)) = VString (str "Parameters"))
  /\ (no_nested_headings (dom w) ->
      forall n s,
        In n (headings_of (dom (pass_result w))) ->
        dom_textContent n (dom (pass_result w)) = VString s ->
        trim s <> str "Query Parameters").
Proof.
  intros W. destruct (pass_result_dom w W) as [E (W' & P1 & _)].
  split; [rewrite E; reflexivity|]. split.
  - intros n s I Ht Hs.
    destruct (headings_lookup _ _ I) as (nm & cl & ch & F).
    apply (text_of_rewritten _ _ nm cl), (P1 n nm cl ch I F).
    apply phrase_at_text. eauto.
  - intros Flat n s I. apply phrase_at_false_text, pass_clears_flat; assumption.
Qed.

Lemma headings_rewritten_witness :
  well_formed (dom (on_load three_headings))
  /\ no_nested_headings three_headings
  /\ dom_textContent 2 (dom (pass_result (on_load three_headings)))
     = VString (str "Parameters")
  /\ (forall n s,
        In n (headings_of (dom (pass_result (on_load three_headings)))) ->
        dom_textContent n (dom (pass_result (on_load three_headings))) = VString s ->
        trim s <> str "Query Parameters").
Proof.
  pose proof (headings_rewritten (on_load three_headings)
                three_headings_well_formed) as (_ & A & B).
  split; [exact three_headings_well_formed|].
  split; [exact three_headings_not_nested|].
  split.
  - apply (A 2 (str "Query Parameters")); [vm_compute; auto | reflexivity | reflexivity].
  - exact (B three_headings_not_nested).
Defined.

(** C2, as stated, fails on the same document: the second pass finds
    the outer heading with the phrase, rewrites it and reports one
    replacement. *)
Lemma nested_heading_second_pass :
  ~ (forall w : world document,
        well_formed (dom w) ->
        replaceQueryParameters (pass_result w)
        = (Normal tt,
           {| dom := dom (pass_result w);
              console := console (pass_result w) ++ [count_record 0] |})).
Proof.
  intros K.
  specialize (K (on_load nested_headings) nested_headings_well_formed).
  vm_compute in K. discriminate.
Qed.

(** C2, amended: on a well-formed document in which no selected
    heading lies inside another one, a second pass run right after the
    first leaves the document as the first left it and reports zero
    replacements. *)
Theorem second_pass_idle (w : world document) :
  well_formed (dom w) ->
  no_nested_headings (dom w) ->
  replaceQueryParameters (pass_result w)
  = (Normal tt,
     {| dom := dom (pass_result w);
        console := console (pass_result w) ++ [count_record 0] |}).
Proof.
  intros W Flat. apply pass_idle, pass_clears_flat; assumption.
Qed.

Lemma second_pass_idle_witness :
  replaceQueryParameters (pass_result (on_load three_headings))
  = (Normal tt,
     {| dom := dom (pass_result (on_load three_headings));
        console := [count_record 2; count_record 0] |}).
Proof.
  exact (second_pass_idle (on_load three_headings)
           three_headings_well_formed three_headings_not_nested).
Defined.

Lemma phrase_not_inside (pre post : jsstring) :
  pre ++ post <> [] ->
  pre ++ str "Query Parameters" ++ post <> str "Query Parameters".
Proof.
  intros Ne E. apply (f_equal (@List.length _)) in E.
  rewrite !length_app in E. cbn in E.
  destruct pre; [destruct post|]; simpl in *; [congruence | lia | lia].
Qed.

(** C3, as stated, fails on a heading that reads "Query Parameters
    List" through a heading nested in it: the pass does not assign to
    the outer heading of [list_over_heading], it rewrites the inner
    one, and the outer one reads "Parameters List" afterwards. *)
Lemma heading_text_partly_replaced :
  ~ (forall w : world document,
        well_formed (dom w) ->
        forall n,
          In n (headings_of (dom w)) ->
          dom_textContent n (dom w) = VString (str "Query Parameters List") ->
          dom_textContent n (dom (pass_result w))
          = VString (str "Query Parameters List")).
Proof.
  intros K.
  assert (W : well_formed (dom (on_load list_over_heading)))
    by (unfold well_formed; concrete_NoDup).
  specialize (K (on_load list_over_heading) W 2).
  vm_compute in K. specialize (K (or_introl eq_refl) eq_refl). discriminate.
Qed.

Example list_over_heading_after :
  dom_textContent 2 (dom (pass_result (on_load list_over_heading)))
  = VString (str "Parameters List")
  /\ console (pass_result (on_load list_over_heading)) = [count_record 1].
Proof. split; reflexivity. Qed.

(** C3, amended: the match is exact after trimming, heading by
    heading. After a pass over a well-formed document, a selected
    heading whose text trimmed to "Query Parameters" when the pass
    scanned, as "Query Parameters " does, has text content exactly
    "Parameters". A selected heading whose trimmed text was anything
    else, "Query Parameters List" or any other string that holds the
    phrase and more, is not assigned to: it keeps its name, classes and
    child nodes; it is still a selected heading of the document unless
    it lay inside a heading that was rewritten; and it is unchanged,
    text content included, when no selected heading with the phrase
    lies inside it. *)
Theorem exact_match_per_heading (w : world document) :
  well_formed (dom w) ->
  (forall n s,
      In n (headings_of (dom w)) ->
      dom_textContent n (dom w) = VString s ->
      trim s = str "Query Parameters" ->
      dom_textContent n (dom (pass_result w)) = VString (str "Parameters"))
  /\ (forall n,
        In n (headings_of (dom w)) ->
        dom_textContent n (dom w) = VString (str "Query Parameters ") ->
        dom_textContent n (dom (pass_result w)) = VString (str "Parameters"))
  /\ (forall n s,
        In n (headings_of (dom w)) ->
        dom_textContent n (dom w) = VString s ->
        trim s <> str "Query Parameters" ->
        heading_kept (dom w) (dom (pass_result w)) n)
  /\ (forall n,
        In n (headings_of (dom w)) ->
        dom_textContent n (dom w) = VString (str "Query Parameters List") ->
        heading_kept (dom w) (dom (pass_result w)) n)
  /\ (forall n s pre post,
        In n (headings_of (dom w)) ->
        dom_textContent n (dom w) = VString s ->
        trim s = pre ++ str "Query Parameters" ++ post ->
        pre ++ post <> [] ->
        heading_kept (dom w) (dom (pass_result w)) n).
Proof.
  intros W. destruct (pass_result_dom w W) as [_ (_ & P1 & _)].
  assert (Yes : forall n s,
             In n (headings_of (dom w)) ->
             dom_textContent n (dom w) = VString s ->
             trim s = str "Query Parameters" ->
             dom_textContent n (dom (pass_result w))
             = VString (str "Parameters")).
  { intros n s I Ht Hs.
    destruct (headings_lookup _ _ I) as (nm & cl & ch & F).
    apply (text_of_rewritten _ _ nm cl), (P1 n nm cl ch I F).
    apply phrase_at_text. eauto. }
  assert (No : forall n s,
             In n (headings_of (dom w)) ->
             dom_textContent n (dom w) = VString s ->
             trim s <> str "Query Parameters" ->
             heading_kept (dom w) (dom (pass_result w)) n).
  { intros n s I Ht Hs. apply pass_heading_kept; auto.
    destruct (phrase_at (dom w) n) eqn:Hp; [|reflexivity].
    apply phrase_at_text in Hp as (s' & Ht' & Hs'). congruence. }
  split; [exact Yes|]. split; [|split; [exact No|split]].
  - intros n I Ht. apply (Yes n _ I Ht). reflexivity.
  - intros n I Ht. apply (No n _ I Ht). vm_compute. discriminate.
  - intros n s pre post I Ht E Ne. apply (No n s I Ht). rewrite E.
    apply phrase_not_inside, Ne.
Qed.

Lemma exact_match_per_heading_witness :
  dom_textContent 2 (dom (pass_result (on_load near_misses)))
  = VString (str "Parameters")
  /\ In 3 (headings_of (dom (pass_result (on_load near_misses))))
  /\ dom_textContent 3 (dom (pass_result (on_load near_misses)))
     = VString (str "Query Parameters List").
Proof.
  destruct (exact_match_per_heading (on_load near_misses)
              near_misses_well_formed) as (_ & Yes & _ & No & _).
  assert (I2 : In 2 (headings_of (dom (on_load near_misses))))
    by (vm_compute; auto).
  assert (I3 : In 3 (headings_of (dom (on_load near_misses))))
    by (vm_compute; auto).
  split; [exact (Yes 2 I2 eq_refl)|].
  destruct (No 3 I3 eq_refl _ eq_refl) as (_ & Stays & Same).
  split.
  - apply Stays. intros (h & u & Ih & Fh & Hp & Iu & Ne).
    vm_compute in Ih. destruct Ih as [<-|[<-|[<-|[]]]];
      vm_compute in Fh; injection Fh as <-; vm_compute in Iu;
      destruct Iu as [E|[]]; congruence.
  - apply Same. intros m Im Hp Iu. vm_compute in Iu. destruct Iu as [<-|[]].
    vm_compute in Hp. discriminate.
Defined.

(** C4: a document whose selected headings are exactly three elements
    with texts "Query Parameters", "Responses", "Query Parameters", in
    that order. A pass returns normally, leaves their texts
    "Parameters", "Responses", "Parameters" and the three of them the
    selected headings of the document, and adds one record to the
    console, the log record with count 2. *)
Theorem three_headings_scenario (w : world document) (a b e : nat) :
  well_formed (dom w) ->
  headings_of (dom w) = [a; b; e] ->
  dom_textContent a (dom w) = VString (str "Query Parameters") ->
  dom_textContent b (dom w) = VString (str "Responses") ->
  dom_textContent e (dom w) = VString (str "Query Parameters") ->
  fst (replaceQueryParameters w) = Normal tt
  /\ dom_textContent a (dom (pass_result w)) = VString (str "Parameters")
  /\ dom_textContent b (dom (pass_result w)) = VString (str "Responses")
  /\ dom_textContent e (dom (pass_result w)) = VString (str "Parameters")
  /\ headings_of (dom (pass_result w)) = [a; b; e]
  /\ console (pass_result w) = console w ++ [count_record 2].
Proof.
  intros W HL Ta Tb Te.
  destruct (pass_result_dom w W) as [E (W' & P1 & P2 & _ & _ & _ & P6 & _)].
  pose proof (headings_ordered _ W) as O.
  pose proof (headings_NoDup _ W) as ND.
  assert (Below : forall n name cls old m,
             In n [a; b; e] ->
             lookup n (dom w) = Some (Element n name cls old) ->
             In m (flat_map (select heading_selector) old) ->
             In m [a; b; e] /\ m <> n /\ In m (flat_map ids old)).
  { rewrite <- HL. intros n name cls old m. apply headings_below, W. }
  assert (Split : forall name cls old,
             lookup a (dom w) = Some (Element a name cls old) ->
             exists pre post,
               [a; b; e]
               = pre ++ (a :: flat_map (select heading_selector) old) ++ post).
  { intros name cls old F.
    assert (Ia : In a (headings_of (dom w))) by (rewrite HL; simpl; auto).
    rewrite (headings_found _ _ Ia) in F.
    destruct (select_split_forest heading_selector a _ _
                (proj2 (Forall_forall _ _)
                   (fun t _ => select_split heading_selector a t _)) F)
      as (pre & post & Es).
    fold (headings_of (dom w)) in Es. rewrite HL in Es.
    rewrite select_element in Es.
    unfold well_formed, objects in W. rewrite flat_map_app in W.
    apply NoDup_app_inv in W as (Wd & _ & _).
    rewrite (select_matches_forest heading_selector a _ _
               (proj2 (Forall_forall _ _)
                  (fun t _ => select_matches heading_selector a t _))
               Wd Ia F) in Es.
    exists pre, post. exact Es. }
  rewrite HL in *.
  apply NoDup_cons_iff in ND as [Nab ND]. apply NoDup_cons_iff in ND as [Nbe _].
  destruct O as [Oa [Ob _]].
  assert (Pa : phrase_at (dom w) a = true) by (apply phrase_at_text; eauto).
  assert (Pe : phrase_at (dom w) e = true) by (apply phrase_at_text; eauto).
  assert (Pb : phrase_at (dom w) b = false).
  { destruct (phrase_at (dom w) b) eqn:Hb; [|reflexivity].
    apply phrase_at_text in Hb as (s & Hs & Ht). rewrite Tb in Hs.
    injection Hs as <-. vm_compute in Ht. discriminate. }
  destruct (textContent_lookup _ _ _ Ta) as (na & ca & cha & Fa & _).
  destruct (textContent_lookup _ _ _ Tb) as (nb & cb & chb & Fb & Xb).
  destruct (textContent_lookup _ _ _ Te) as (ne & ce & che & Fe & Xe).
  split; [rewrite E; reflexivity|]. split; [|split; [|split; [|split]]].
  - apply (text_of_rewritten _ _ na ca), (P1 a na ca cha); simpl; auto.
  - rewrite <- Tb. unfold dom_textContent. rewrite Fb, (P2 b _ Fb); [reflexivity|].
    intros n [<-|[<-|[<-|[]]]] Hn Iu.
    + apply (Oa b _ (or_introl eq_refl) Fb Iu).
    + congruence.
    + pose proof (lookup_within _ _ _ _ W Fb Iu) as Fw. rewrite Fe in Fw.
      symmetry in Fw. apply descendant_text_length in Fw.
      rewrite Xb, Xe in Fw. vm_compute in Fw. lia.
  - apply (text_of_rewritten _ _ ne ce), (P1 e ne ce che); simpl; auto.
  - apply P6. intros n name cls old [<-|[<-|[<-|[]]]] Hn F.
    + (* nothing selected below the first heading *)
      destruct (flat_map (select heading_selector) old) as [|m rest] eqn:Es;
        [reflexivity|exfalso].
      assert (Nb : ~ In b (flat_map (select heading_selector) old)).
      { intros Ib. destruct (Below a name cls old b (or_introl eq_refl) F Ib)
          as (_ & _ & Ii).
        assert (Iu : In b (ids (Element a name cls old))) by (simpl; auto).
        pose proof (lookup_within _ _ _ _ W F Iu) as Fw. rewrite Fb in Fw.
        symmetry in Fw. apply descendant_text_incl in Fw.
        rewrite Fa in F. injection F as -> -> ->.
        destruct (textContent_lookup _ _ _ Ta) as (x & y & z & Fa' & Xa).
        rewrite Fa in Fa'. injection Fa' as <- <- <-.
        rewrite Xb, Xa in Fw.
        assert (I82 : In 82%N (str "Responses")) by (left; reflexivity).
        apply Fw in I82. vm_compute in I82.
        repeat (destruct I82 as [I82|I82]; [discriminate|]). exact I82. }
      rewrite Es in Nb.
      destruct (Split name cls old F) as (pre & post & El). rewrite Es in El.
      destruct pre as [|x pre]; simpl in El.
      * injection El as ->. apply Nb. simpl; auto.
      * injection El as <- El. apply Nab.
        assert (J : In a (pre ++ a :: m :: rest ++ post))
          by (apply in_or_app; simpl; auto).
        rewrite <- El in J. exact J.
    + congruence.
    + (* the first two headings come before the third *)
      destruct (flat_map (select heading_selector) old) as [|m rest] eqn:Es;
        [reflexivity|exfalso].
      assert (Im : In m (flat_map (select heading_selector) old))
        by (rewrite Es; simpl; auto).
      destruct (Below e name cls old m (or_intror (or_intror (or_introl eq_refl)))
                  F Im) as ([<-|[<-|[<-|[]]]] & Ne & Ii).
      * apply (Oa e _ (or_intror (or_introl eq_refl)) F). simpl; auto.
      * apply (Ob e _ (or_introl eq_refl) F). simpl; auto.
      * congruence.
  - unfold pass_result. rewrite E. cbn [snd console filter]. rewrite Pa, Pb, Pe.
    reflexivity.
Qed.

Lemma three_headings_scenario_witness :
  headings_of three_headings = [2; 3; 4]
  /\ dom_textContent 2 (dom (pass_result (on_load three_headings)))
     = VString (str "Parameters")
  /\ dom_textContent 3 (dom (pass_result (on_load three_headings)))
     = VString (str "Responses")
  /\ dom_textContent 4 (dom (pass_result (on_load three_headings)))
     = VString (str "Parameters")
  /\ headings_of (dom (pass_result (on_load three_headings))) = [2; 3; 4]
  /\ console (pass_result (on_load three_headings)) = [count_record 2].
Proof.
  split; [reflexivity|].
  exact (proj2 (three_headings_scenario (on_load three_headings) 2 3 4
                  three_headings_well_formed eq_refl eq_refl eq_refl eq_refl)).
Defined.

(** C5, as stated, fails on a heading nested in a heading: the outer
    heading of [nested_headings] is selected and does not have the
    phrase, and its text content is not what it was. *)
Lemma nested_heading_text_altered :
  ~ (forall w : world document,
        well_formed (dom w) ->
        forall m u,
          lookup m (dom w) = Some u ->
          is_target u = false ->
          dom_textContent m (dom (pass_result w)) = dom_textContent m (dom w)).
Proof.
  intros K.
  specialize (K (on_load nested_headings) nested_headings_well_formed 2 _
                eq_refl eq_refl).
  vm_compute in K. discriminate.
Qed.

(** C5, amended: a pass changes the document tree in one way only.
    Each selected heading whose trimmed text was the phrase when the
    pass scanned, and that is not inside another such heading, gets the
    single text child "Parameters"; every other node stays where it is:
    the document after the pass is [rewrite_tree] of the document
    before. So an element is in the document afterwards exactly when it
    was in it and not inside such a heading; every element other than
    such headings keeps its own state (name, classes, child nodes); and
    every element, selected or not and whatever its text, whose subtree
    holds no such heading is as it was, text content included. *)
Theorem pass_frame (w : world document) :
  well_formed (dom w) ->
  doc_children (dom (pass_result w)) = map rewrite_tree (doc_children (dom w))
  /\ (forall n,
        in_document (dom (pass_result w)) n
        <-> in_document (dom w) n /\ ~ below_target (dom w) n)
  /\ (forall m u,
        lookup m (dom w) = Some u ->
        ~ (In m (headings_of (dom w)) /\ phrase_at (dom w) m = true) ->
        exists u',
          lookup m (dom (pass_result w)) = Some u'
          /\ own_state u' = own_state u)
  /\ (forall m u,
        lookup m (dom w) = Some u ->
        (forall n, In n (headings_of (dom w)) ->
                   phrase_at (dom w) n = true -> ~ In n (ids u)) ->
        lookup m (dom (pass_result w)) = Some u
        /\ dom_textContent m (dom (pass_result w)) = dom_textContent m (dom w)).
Proof.
  intros W. destruct (pass_result_dom w W) as [_ (_ & _ & P2 & Q & _)].
  split; [exact (pass_children w W)|].
  split; [intros n; exact (pass_in_document w n W)|].
  split; [exact Q|].
  intros m u F Hu. pose proof (P2 m u F Hu) as F'. split; [exact F'|].
  unfold dom_textContent. rewrite F, F'. reflexivity.
Qed.

Lemma pass_frame_witness :
  doc_children (dom (pass_result (on_load near_misses)))
  = doc_children
      (page_of [h4_title 2 [Text (str "Parameters")];
                h4_title 3 [Text (str "Query Parameters List")];
                Element 4 "h3" ["api-section-heading-title"%string]
                  [Text (str "Query Parameters")];
                Element 5 "h4" ["title"%string] [Text (str "Query Parameters")];
                h4_title 6 []])
  /\ (in_document (dom (pass_result (on_load near_misses))) 4
      <-> in_document near_misses 4 /\ ~ below_target near_misses 4)
  /\ dom_textContent 4 (dom (pass_result (on_load near_misses)))
     = dom_textContent 4 near_misses.
Proof.
  destruct (pass_frame (on_load near_misses) near_misses_well_formed)
    as (Tree & Doc & _ & Same).
  split; [exact Tree|]. split; [exact (Doc 4)|].
  apply (Same 4 _ eq_refl).
  intros n Hn Hp Iu. vm_compute in Iu. destruct Iu as [<-|[]].
  vm_compute in Hn. destruct Hn as [E|[E|[E|[]]]]; discriminate.
Defined.

(** On the nested headings the inner heading is rewritten in place and
    nothing leaves the document; where a target holds elements, they
    leave it. *)
Example rewrite_tree_nested :
  map rewrite_tree (doc_children nested_headings)
  = doc_children
      (page_of
         [h4_title 2
            [Text (str "Query ");
             Element 3 "span" [] [h4_title 4 [Text (str "Parameters")]]]])
  /\ map rewrite_tree
       (doc_children
          (page_of [h4_title 2 [Element 3 "span" []
                                  [Text (str "Query Parameters")]]]))
     = doc_children (page_of [h4_title 2 [Text (str "Parameters")]]).
Proof. split; reflexivity. Qed.

(* ================================================================= *)
(** ** Claims about the pass over any host *)

Section PassClaims.
Context {D : Type} `{Host D}.

(** C6: the [try] of the pass is its boundary. The pass always returns
    normally. When its body throws, whatever threw, the console gains
    exactly one record, the error record of the exception, and no
    count record. Selection throwing makes the body throw, and so does
    an assignment throwing at any heading of the list (the assignments
    done before it stay). *)
Theorem failure_is_caught (w : world D) :
  fst (replaceQueryParameters w) = Normal tt
  /\ (forall e w',
        scan_and_replace w = (Throw e, w') ->
        replaceQueryParameters w
        = (Normal tt,
           {| dom := dom w'; console := console w ++ [error_record e] |}))
  /\ (forall e,
        host_querySelectorAll "h4.api-section-heading-title" (dom w) = Throw e ->
        scan_and_replace w = (Throw e, w))
  /\ (forall pre n post k w1 s e d,
        host_querySelectorAll "h4.api-section-heading-title" (dom w)
        = Normal (pre ++ RNode n :: post) ->
        forEach pre callback 0 w = (Normal k, w1) ->
        host_textContent n (dom w1) = VString s ->
        trim s = str "Query Parameters" ->
        host_set_textContent n (str "Parameters") (dom w1) = (Throw e, d) ->
        scan_and_replace w = (Throw e, {| dom := d; console := console w |})).
Proof.
  split; [|split; [|split]].
  - destruct (pass_adds_one_record w) as (d & r & E). rewrite E. reflexivity.
  - intros e w' E. unfold replaceQueryParameters, try_catch. rewrite E.
    apply scan_and_replace_throw in E. unfold console_error, console_emit.
    rewrite E. reflexivity.
  - intros e E. unfold scan_and_replace, bind, querySelectorAll. rewrite E.
    reflexivity.
  - intros pre n post k w1 s e d Q Fp Ht Hs Hset.
    unfold scan_and_replace, bind, querySelectorAll. rewrite Q.
    rewrite forEach_app, Fp. cbn [forEach]. unfold bind.
    rewrite callback_visit. unfold visit. rewrite Ht, Hs, jsstring_eqb_refl, Hset.
    pose proof (forEach_keeps_console pre 0 w) as K. rewrite Fp in K.
    simpl in K. rewrite K. reflexivity.
Qed.

(** C9: a node-list entry that is [null] or [undefined], or a node
    whose text content is [null], [undefined] or empty, is passed over:
    the callback returns normally with the document, the console and
    the count it was given, and the iteration goes on after it as if
    the entry were not in the list. *)
Theorem degenerate_nodes_skipped (h : jsref) (w : world D) :
  degenerate h (dom w) ->
  (forall k, callback h k w = (Normal k, w))
  /\ (forall pre post k0 w0 k,
        forEach pre callback k0 w0 = (Normal k, w) ->
        forEach (pre ++ h :: post) callback k0 w0 = forEach post callback k w).
Proof.
  intros Dg. split.
  - intros k. apply degenerate_visit, Dg.
  - intros pre post k0 w0 k Fp. rewrite forEach_app, Fp. cbn [forEach].
    unfold bind. rewrite (degenerate_visit h k w Dg). reflexivity.
Qed.

End PassClaims.

(** A host where selection is not available: one error record. *)
Example no_selection_logged :
  replaceQueryParameters (stub_world no_selection)
  = (Normal tt,
     {| dom := no_selection; console := [error_record "TypeError"%string] |}).
Proof. reflexivity. Qed.

(** The second heading is read-only: the first one stays rewritten, the
    assignment that throws is logged, and no count is. *)
Example frozen_heading_logged :
  console (pass_result (stub_world frozen_heading))
  = [error_record "NoModificationAllowedError"%string]
  /\ host_textContent 1 (dom (pass_result (stub_world frozen_heading)))
     = VString (str "Parameters").
Proof. split; reflexivity. Qed.

Lemma degenerate_nodes_skipped_witness :
  degenerate (RNode 1) sparse_list
  /\ callback (RNode 1) 0 (stub_world sparse_list)
     = (Normal 0, stub_world sparse_list)
  /\ replaceQueryParameters (stub_world sparse_list)
     = (Normal tt,
        {| dom := dom (pass_result (stub_world sparse_list));
           console := [count_record 1] |}).
Proof.
  assert (Dg : degenerate (RNode 1) (dom (stub_world sparse_list))).
  { right; right. exists 1. split; [reflexivity|]. left. reflexivity. }
  split; [exact Dg|]. split.
  - exact (proj1 (degenerate_nodes_skipped (RNode 1) (stub_world sparse_list) Dg) 0).
  - reflexivity.
Defined.

(* ================================================================= *)
(** ** The page *)

Section PageFacts.
Context {D : Type} `{Host D}.

Lemma timers_run_handler (h : handler) (p : page D) :
  timers (run_handler h p) = timers p.
Proof.
  destruct h; try reflexivity. unfold run_handler, observe_when_body.
  destruct (host_body _); reflexivity.
Qed.

Lemma listeners_run_handler (h : handler) (p : page D) :
  listeners (run_handler h p) = listeners p.
Proof.
  destruct h; try reflexivity. unfold run_handler, observe_when_body.
  destruct (host_body _); reflexivity.
Qed.


Lemma fold_run_handlers_timers (ls : list listener) (p : page D) :
  timers (fold_left (fun q l => run_handler (listener_handler l) q) ls p)
  = timers p.
Proof.
  revert p; induction ls as [|l ls IH]; intros p; simpl; [reflexivity|].
  rewrite IH. apply timers_run_handler.
Qed.

Lemma fold_run_handlers_listeners (ls : list listener) (p : page D) :
  listeners (fold_left (fun q l => run_handler (listener_handler l) q) ls p)
  = listeners p.
Proof.
  revert p; induction ls as [|l ls IH]; intros p; simpl; [reflexivity|].
  rewrite IH. apply listeners_run_handler.
Qed.


(** A step leaves the pending timers, less the one that fired. *)
Lemma step_timers (p q : page D) (e : event) :
  step p e q ->
  timers q
  = match e with
    | Fired t => filter (fun x => negb (Nat.eqb (timer_id x) (timer_id t))) (timers p)
    | _ => timers p
    end.
Proof.
  intros S. destruct S as [p t I | p t ty | p o I | p d].
  - rewrite timers_run_handler. reflexivity.
  - apply fold_run_handlers_timers.
  - apply timers_run_handler.
  - reflexivity.
Qed.

Lemma step_listeners (p q : page D) (e : event) :
  step p e q -> listeners q = listeners p.
Proof.
  intros S. destruct S as [p t I | p t ty | p o I | p d].
  - rewrite listeners_run_handler. reflexivity.
  - apply fold_run_handlers_listeners.
  - apply listeners_run_handler.
  - reflexivity.
Qed.


Lemma run_listeners (p q : page D) (es : list event) :
  run p es q -> listeners q = listeners p.
Proof.
  induction 1 as [p | p e q es r S R IH]; [reflexivity|].
  rewrite IH. apply (step_listeners _ _ _ S).
Qed.


(** A timer that is not pending does not fire. *)
Lemma absent_timer_never_fires (p q : page D) (es : list event) (i : nat) :
  run p es q ->
  ~ In i (map timer_id (timers p)) ->
  fired_count i es = 0.
Proof.
  induction 1 as [p | p e q es r S R IH]; intros Ni; [reflexivity|].
  assert (Nq : ~ In i (map timer_id (timers q))).
  { rewrite (step_timers _ _ _ S). intros I. apply Ni.
    destruct e; try exact I.
    apply in_map_iff in I as (x & <- & Ix). apply filter_In in Ix as [Ix _].
    apply in_map, Ix. }
  specialize (IH Nq). destruct S as [p t I | p t ty | p o I | p d]; simpl; auto.
  destruct (Nat.eqb_spec (timer_id t) i) as [<-|_]; [|exact IH].
  exfalso. apply Ni, in_map, I.
Qed.

(** Whatever happens on the page, no timer fires twice. *)
Lemma timers_are_one_shot (p q : page D) (es : list event) (i : nat) :
  run p es q -> fired_count i es <= 1.
Proof.
  induction 1 as [p | p e q es r S R IH]; [simpl; lia|].
  pose proof (step_timers _ _ _ S) as T.
  destruct S as [p t I | p t ty | p o I | p d]; simpl; auto.
  destruct (Nat.eqb_spec (timer_id t) i) as [<-|_]; [|exact IH].
  rewrite (absent_timer_never_fires _ _ _ _ R); [lia|].
  rewrite T. intros J. apply in_map_iff in J as (x & E & Ix).
  apply filter_In in Ix as [_ Ix]. rewrite E, Nat.eqb_refl in Ix. discriminate.
Qed.




(** The script, statement by statement. *)
Lemma loaded_eq (w : world D) (mo : bool) :
  loaded w mo
  = let loading := String.eqb (host_readyState (dom w)) "loading" in
    let w' := if loading then w else pass_result w in
    let attach := match host_body (dom w') with RNode b => Some b | _ => None end in
    {| page_world := w';
       has_MutationObserver := mo;
       listeners :=
         (if loading then [DOMContentLoaded_listener] else []) ++ [load_listener];
       timers :=
         five_timers
         ++ (if mo then match attach with Some _ => [] | None => [body_check] end
             else []);
       next_timer :=
         if mo then match attach with Some _ => 5 | None => 6 end else 5;
       observations :=
         if mo then match attach with Some b => [body_observation b] | None => [] end
         else [] |}.
Proof.
  unfold loaded, script, fresh_page. cbn [page_world dom].
  destruct (String.eqb _ _); cbn -[replaceQueryParameters];
    destruct mo; cbn -[replaceQueryParameters]; try reflexivity.
  - destruct (host_body (dom w)); reflexivity.
  - unfold pass_result.
    destruct (host_body (dom (snd (replaceQueryParameters w)))); reflexivity.
Qed.

End PageFacts.

(* ================================================================= *)
(** ** Claims about scheduling *)

Section PageClaims.
Context {D : Type} `{Host D}.

(** C7: what the script has registered when it ends. With
    [readyState] "loading" the pass listens to [DOMContentLoaded] and
    has not run; otherwise it has run once and does not listen to that
    event. In both cases the pass listens to [load] on the window, and
    the timers that call the pass are five, with delays 100, 300, 500,
    1000 and 2000. Firing one of them runs the pass and takes the timer
    off the pending list, and in no run of the page does a timer fire
    twice. *)
Theorem scheduling_protocol (w : world D) (mo : bool) :
  (host_readyState (dom w) = "loading"%string ->
   listeners (loaded w mo) = [DOMContentLoaded_listener; load_listener]
   /\ page_world (loaded w mo) = w)
  /\ (host_readyState (dom w) <> "loading"%string ->
      listeners (loaded w mo) = [load_listener]
      /\ page_world (loaded w mo) = pass_result w)
  /\ filter (fun t => invokes_pass (timer_handler t)) (timers (loaded w mo))
     = five_timers
  /\ map timer_delay five_timers = [100; 300; 500; 1000; 2000]
  /\ (forall q t,
        In t five_timers -> In t (timers q) ->
        step q (Fired t)
          (call_replaceQueryParameters (cancel_timer (timer_id t) q))
        /\ ~ In t (timers (call_replaceQueryParameters
                             (cancel_timer (timer_id t) q))))
  /\ (forall es q i, run (loaded w mo) es q -> fired_count i es <= 1)
  /\ (forall es q, run (loaded w mo) es q -> listeners q = listeners (loaded w mo)).
Proof.
  rewrite loaded_eq. cbv zeta. cbn [listeners page_world timers].
  split; [|split; [|split; [|split; [|split; [|split]]]]].
  - intros E. apply String.eqb_eq in E. rewrite E. split; reflexivity.
  - intros E. apply String.eqb_neq in E. rewrite E. split; reflexivity.
  - rewrite filter_app.
    replace (filter _ five_timers) with five_timers by reflexivity.
    destruct mo; [|apply app_nil_r].
    destruct (host_body _); try apply app_nil_r; reflexivity.
  - reflexivity.
  - intros q t It Iq. split.
    + assert (E : timer_handler t = HReplaceQueryParameters).
      { destruct It as [<-|[<-|[<-|[<-|[<-|[]]]]]]; reflexivity. }
      pose proof (step_timer q t Iq) as S. rewrite E in S. exact S.
    + cbn [call_replaceQueryParameters with_world cancel_timer timers].
      intros J. apply filter_In in J as [_ J].
      rewrite Nat.eqb_refl in J. discriminate.
  - intros es q i R. exact (timers_are_one_shot _ _ _ i R).
  - intros es q R. exact (run_listeners _ _ _ R).
Qed.


(** C10: the page a handler runs in matters to a pass through its
    document only. Whatever two events run the pass (a timer, a
    listener of a dispatched event, a delivery to the observer), on
    pages whose documents are equal, the documents afterwards are equal
    and both consoles gain the same single record. *)
Theorem pass_is_deterministic (p1 p2 q1 q2 : page D) (e1 e2 : event)
  (h1 h2 : handler) :
  step p1 e1 q1 ->
  step p2 e2 q2 ->
  handlers_of e1 p1 = [h1] -> invokes_pass h1 = true ->
  handlers_of e2 p2 = [h2] -> invokes_pass h2 = true ->
  dom (page_world p1) = dom (page_world p2) ->
  dom (page_world q1) = dom (page_world q2)
  /\ exists r,
       console (page_world q1) = console (page_world p1) ++ [r]
       /\ console (page_world q2) = console (page_world p2) ++ [r].
Proof.
  assert (Run : forall p q e h,
             step p e q -> handlers_of e p = [h] -> invokes_pass h = true ->
             page_world q = pass_result (page_world p)).
  { intros p q e h S Hh Hi. destruct S as [p t I | p t ty | p o I | p d];
      cbn [handlers_of] in Hh.
    - injection Hh as <-. destruct (timer_handler t); try discriminate; reflexivity.
    - unfold dispatch. destruct (filter _ _) as [|l [|l' ls]]; try discriminate.
      injection Hh as <-. simpl.
      destruct (listener_handler l); try discriminate; reflexivity.
    - injection Hh as <-. destruct (obs_callback o); try discriminate; reflexivity.
    - discriminate. }
  intros S1 S2 H1 I1 H2 I2 E.
  rewrite (Run _ _ _ _ S1 H1 I1), (Run _ _ _ _ S2 H2 I2).
  unfold pass_result.
  rewrite (pass_console (page_world p1)), (pass_console (page_world p2)), E.
  cbn [snd dom console]. split; [reflexivity|].
  destruct (pass_adds_one_record {| dom := dom (page_world p2); console := [] |})
    as (d & r & Er).
  rewrite Er. cbn [snd console]. exists r. split; reflexivity.
Qed.

End PageClaims.

Lemma pass_is_deterministic_witness :
  dom (page_world (run_handler HReplaceQueryParameters (cancel_timer 0 page_one)))
  = dom (page_world (dispatch TWindow "load" page_two))
  /\ exists r,
       console (page_world (run_handler HReplaceQueryParameters
                              (cancel_timer 0 page_one)))
       = console (page_world page_one) ++ [r]
       /\ console (page_world (dispatch TWindow "load" page_two))
          = console (page_world page_two) ++ [r].
Proof.
  apply (pass_is_deterministic page_one page_two _ _
           (Fired (retry 0 100)) (Dispatched TWindow "load")
           HReplaceQueryParameters HReplaceQueryParameters).
  - apply (step_timer page_one (retry 0 100)). vm_compute. auto.
  - apply step_dispatch.
  - reflexivity.
  - reflexivity.
  - reflexivity.
  - reflexivity.
  - reflexivity.
Defined.

(** The script on a document that is loading and has no body: the
    pass has not run, and the body check is pending with the five
    timers. When the body has appeared and the check fires, the body is
    observed; a delivery then runs the pass. *)
Example late_body_is_observed :
  exists q,
    run (loaded (on_load no_body) true)
      [Mutated; Fired body_check; Notified (body_observation 2)] q
    /\ timers (loaded (on_load no_body) true) = five_timers ++ [body_check]
    /\ observations q = [body_observation 2]
    /\ timers q = five_timers
    /\ console (page_world q) = [count_record 1]
    /\ dom_textContent 3 (dom (page_world q)) = VString (str "Parameters").
Proof.
  eexists. split.
  - eapply run_cons; [apply (step_mutate _ with_body)|].
    eapply run_cons; [apply step_timer; vm_compute; auto 10|].
    eapply run_cons; [apply step_notify; vm_compute; auto|].
    apply run_nil.
  - repeat split; reflexivity.
Qed.

(* ################################################################# *)
(** * Further properties of the pass and of the page *)

(* ================================================================= *)
(** ** What a pass keeps, and what its count says *)

Lemma settled_no_phrase t : settled t = true -> has_phrase t = false.
Proof.
  destruct t as [s|s|i nm cl [|[s|s|j a b c] [|x r]]]; try discriminate.
  simpl. intros E. apply jsstring_eqb_eq in E. subst s. reflexivity.
Qed.

Lemma settled_ids t : settled t = true -> exists i, ids t = [i].
Proof.
  destruct t as [s|s|i nm cl [|[s|s|j a b c] [|x r]]]; try discriminate.
  intros _. exists i. reflexivity.
Qed.

Lemma filter_length_zero {A} (f : A -> bool) (l : list A) :
  List.length (filter f l) = 0 -> forall x, In x l -> f x = false.
Proof.
  induction l as [|a l IH]; simpl; [intros _ x []|].
  destruct (f a) eqn:E; [discriminate|].
  intros Z x [<-|I]; auto.
Qed.

Lemma filter_length_pos {A} (f : A -> bool) (l : list A) :
  List.length (filter f l) <> 0 -> exists x, In x l /\ f x = true.
Proof.
  induction l as [|a l IH]; simpl; [congruence|].
  destruct (f a) eqn:E.
  - intros _. exists a. auto.
  - intros Z. destruct (IH Z) as (x & I & F). exists x. auto.
Qed.

(** X8: a pass over a well-formed document keeps it well-formed,
    leaves [readyState], selects no heading that was not selected
    before, and neither creates nor destroys an element: a reference
    is live after the pass exactly when it was live before. *)
Theorem pass_keeps_objects (w : world document) :
  well_formed (dom w) ->
  well_formed (dom (pass_result w))
  /\ doc_readyState (dom (pass_result w)) = doc_readyState (dom w)
  /\ incl (headings_of (dom (pass_result w))) (headings_of (dom w))
  /\ (forall m, lookup m (dom (pass_result w)) = None
                <-> lookup m (dom w) = None).
Proof.
  intros W.
  destruct (pass_result_dom w W) as [_ (W' & P1 & _ & Q & P3 & P4 & _ & P5)].
  split; [exact W'|]. split; [exact P5|]. split; [exact P4|].
  intros m. split; [|apply P3].
  intros N'. destruct (lookup m (dom w)) as [u|] eqn:F; [exfalso|reflexivity].
  destruct (lookup_element _ _ _ F) as (nm & cl & ch & ->).
  destruct (in_dec Nat.eq_dec m (headings_of (dom w))) as [I|NI].
  - destruct (phrase_at (dom w) m) eqn:Hp.
    + rewrite (P1 m nm cl ch I F Hp) in N'. discriminate.
    + destruct (Q m _ F) as (u' & F' & _); [intros [_ K]; congruence|].
      congruence.
  - destruct (Q m _ F) as (u' & F' & _); [intros [K _]; contradiction|].
    congruence.
Qed.

Lemma pass_keeps_objects_witness :
  well_formed (dom (pass_result (on_load nested_headings)))
  /\ doc_readyState (dom (pass_result (on_load nested_headings)))
     = doc_readyState nested_headings
  /\ incl (headings_of (dom (pass_result (on_load nested_headings))))
       (headings_of nested_headings)
  /\ (forall m, lookup m (dom (pass_result (on_load nested_headings))) = None
                <-> lookup m nested_headings = None).
Proof.
  exact (pass_keeps_objects (on_load nested_headings) nested_headings_well_formed).
Defined.

(** X2: the count a pass logs is the number of selected headings whose
    trimmed text was the phrase when the pass scanned, headings inside
    such headings included; it is at most the number of selected
    headings, and it is zero exactly when the pass left the document
    as it was. *)
Theorem count_is_faithful (w : world document) :
  well_formed (dom w) ->
  exists k,
    console (pass_result w) = console w ++ [count_record k]
    /\ k = List.length (filter (phrase_at (dom w)) (headings_of (dom w)))
    /\ k <= List.length (headings_of (dom w))
    /\ (k = 0 <-> dom (pass_result w) = dom w).
Proof.
  intros W. destruct (pass_result_dom w W) as [E (_ & P1 & _)].
  exists (List.length (filter (phrase_at (dom w)) (headings_of (dom w)))).
  split; [unfold pass_result at 1; rewrite E; reflexivity|].
  split; [reflexivity|]. split; [apply filter_length_le|]. split.
  - intros Z. unfold pass_result.
    rewrite (pass_idle w (filter_length_zero _ _ Z)). reflexivity.
  - intros Same.
    destruct (Nat.eq_dec
                (List.length (filter (phrase_at (dom w)) (headings_of (dom w)))) 0)
      as [Z|NZ]; [exact Z | exfalso].
    destruct (filter_length_pos _ _ NZ) as (n & I & Hp).
    destruct (headings_lookup _ _ I) as (nm & cl & ch & F).
    pose proof (P1 n nm cl ch I F Hp) as F'. rewrite Same, F in F'.
    injection F' as ->. unfold phrase_at in Hp. rewrite F in Hp.
    vm_compute in Hp. discriminate.
Qed.

Lemma count_is_faithful_witness :
  exists k,
    console (pass_result (on_load nested_headings)) = [] ++ [count_record k]
    /\ k = List.length (filter (phrase_at nested_headings)
                          (headings_of nested_headings))
    /\ k <= List.length (headings_of nested_headings)
    /\ (k = 0 <-> dom (pass_result (on_load nested_headings)) = nested_headings).
Proof.
  exact (count_is_faithful (on_load nested_headings) nested_headings_well_formed).
Defined.

(* ================================================================= *)
(** ** Repeated passes settle *)

Lemma passes_add {D : Type} `{Host D} (j k : nat) (w : world D) :
  passes (j + k) w = passes k (passes j w).
Proof.
  revert w; induction j as [|j IH]; intros w; simpl; [reflexivity | apply IH].
Qed.

(** Once no heading has the phrase, passes leave the document alone. *)
Lemma passes_idle (j : nat) :
  forall w : world document,
    (forall n, In n (headings_of (dom w)) -> phrase_at (dom w) n = false) ->
    dom (passes j w) = dom w.
Proof.
  induction j as [|j IH]; intros w Hw; [reflexivity|].
  simpl. assert (E : dom (pass_result w) = dom w).
  { unfold pass_result. rewrite (pass_idle w Hw). reflexivity. }
  rewrite IH; [exact E|]. rewrite E. exact Hw.
Qed.

(** A pass that finds the phrase settles a heading for good. *)
Lemma pass_settles (w : world document) (n : nat) :
  well_formed (dom w) ->
  In n (headings_of (dom w)) -> phrase_at (dom w) n = true ->
  List.length (unsettled (dom (pass_result w)))
  < List.length (unsettled (dom w)).
Proof.
  intros W I Hp.
  destruct (pass_result_dom w W) as [_ (_ & P1 & P2 & _ & _ & P4 & _)].
  destruct (headings_lookup _ _ I) as (nm & cl & ch & F).
  assert (Sn : settled_at (dom (pass_result w)) n = true).
  { unfold settled_at. rewrite (P1 n nm cl ch I F Hp). reflexivity. }
  assert (Un : settled_at (dom w) n = false).
  { unfold settled_at, phrase_at in *. rewrite F in *.
    destruct (settled _) eqn:S; [|reflexivity].
    rewrite (settled_no_phrase _ S) in Hp. discriminate. }
  assert (Inc : incl (n :: unsettled (dom (pass_result w))) (unsettled (dom w))).
  { intros m [<-|Im].
    - apply filter_In. rewrite Un. auto.
    - apply filter_In in Im as [Im Sm]. apply filter_In. split; [apply P4, Im|].
      destruct (settled_at (dom w) m) eqn:S; [|reflexivity].
      unfold settled_at in S, Sm.
      destruct (lookup m (dom w)) as [u|] eqn:Fm; [|discriminate].
      rewrite (P2 m u Fm) in Sm; [rewrite S in Sm; discriminate|].
      intros n' I' Hp' Iu. destruct (settled_ids _ S) as (i & Ei).
      destruct (lookup_element _ _ _ Fm) as (a & b & c & ->).
      simpl in Ei. injection Ei as _ Ec. simpl in Iu. rewrite Ec in Iu.
      destruct Iu as [<-|[]].
      unfold phrase_at in Hp'. rewrite Fm, (settled_no_phrase _ S) in Hp'.
      discriminate. }
  apply NoDup_incl_length in Inc; [exact Inc|].
  apply NoDup_cons.
  - intros J. apply filter_In in J as [_ J]. rewrite Sn in J. discriminate.
  - apply NoDup_filter, headings_NoDup.
    apply (pass_result_dom w W).
Qed.

Lemma passes_settle_within (m : nat) :
  forall w : world document,
    well_formed (dom w) ->
    List.length (unsettled (dom w)) <= m ->
    exists k,
      k <= m
      /\ well_formed (dom (passes k w))
      /\ forall n, In n (headings_of (dom (passes k w))) ->
                   phrase_at (dom (passes k w)) n = false.
Proof.
  induction m as [|m IH]; intros w W Hm.
  - exists 0. split; [lia|]. split; [exact W|]. intros n I. simpl.
    destruct (phrase_at (dom w) n) eqn:Hp; [|reflexivity].
    pose proof (pass_settles w n W I Hp). lia.
  - destruct (existsb (phrase_at (dom w)) (headings_of (dom w))) eqn:Ex.
    + apply existsb_exists in Ex as (n & I & Hp).
      pose proof (pass_settles w n W I Hp) as Lt.
      destruct (IH (pass_result w)) as (k & Hk & Wk & Sk).
      * apply (pass_result_dom w W).
      * lia.
      * exists (S k). split; [lia|]. split; [exact Wk | exact Sk].
    + exists 0. split; [lia|]. split; [exact W|]. intros n I. simpl.
      destruct (phrase_at (dom w) n) eqn:Hp; [|reflexivity].
      assert (existsb (phrase_at (dom w)) (headings_of (dom w)) = true)
        by (apply existsb_exists; eauto).
      congruence.
Qed.

(** X1: passes in a row settle. On a well-formed document there is a
    number of passes, at most the number of selected headings, after
    which no selected heading of the document trims to the phrase, the
    next pass reports zero, and every later pass leaves the document as
    it is. So re-running the pass, as the timers and the observer do,
    comes to rest, nested headings included. *)
Theorem passes_settle (w : world document) :
  well_formed (dom w) ->
  exists k,
    k <= List.length (headings_of (dom w))
    /\ (forall n s,
          In n (headings_of (dom (passes k w))) ->
          dom_textContent n (dom (passes k w)) = VString s ->
          trim s <> str "Query Parameters")
    /\ replaceQueryParameters (passes k w)
       = (Normal tt,
          {| dom := dom (passes k w);
             console := console (passes k w) ++ [count_record 0] |})
    /\ forall j, dom (passes (k + j) w) = dom (passes k w).
Proof.
  intros W.
  destruct (passes_settle_within (List.length (headings_of (dom w))) w W)
    as (k & Hk & Wk & Sk); [apply filter_length_le|].
  exists k. split; [exact Hk|]. split; [|split].
  - intros n s I. apply phrase_at_false_text, Sk, I.
  - apply pass_idle, Sk.
  - intros j. rewrite passes_add. apply passes_idle, Sk.
Qed.

Lemma passes_settle_witness :
  exists k,
    k <= List.length (headings_of nested_headings)
    /\ (forall n s,
          In n (headings_of (dom (passes k (on_load nested_headings)))) ->
          dom_textContent n (dom (passes k (on_load nested_headings))) = VString s ->
          trim s <> str "Query Parameters")
    /\ replaceQueryParameters (passes k (on_load nested_headings))
       = (Normal tt,
          {| dom := dom (passes k (on_load nested_headings));
             console := console (passes k (on_load nested_headings))
                        ++ [count_record 0] |})
    /\ forall j, dom (passes (k + j) (on_load nested_headings))
                 = dom (passes k (on_load nested_headings)).
Proof.
  exact (passes_settle (on_load nested_headings) nested_headings_well_formed).
Defined.

(** On the nested headings the second pass is the last that changes
    anything. *)
Example nested_headings_settle :
  map entry_args (console (passes 3 (on_load nested_headings)))
  = map entry_args [count_record 1; count_record 1; count_record 0]
  /\ dom_textContent 2 (dom (passes 2 (on_load nested_headings)))
     = VString (str "Parameters").
Proof. split; reflexivity. Qed.

(* ================================================================= *)
(** ** The body stays the body *)

Lemma first_element_replace p n new l :
  first_element p (map (replace_children n new) l)
  = option_map (replace_children n new) (first_element p l).
Proof.
  unfold first_element. induction l as [|t l IH]; simpl; [reflexivity|].
  assert (E : match replace_children n new t with
              | Element _ name _ _ => p name | _ => false end
              = match t with Element _ name _ _ => p name | _ => false end).
  { destruct t as [s|s|i nm cl ch]; try reflexivity. simpl.
    destruct (Nat.eqb i n); reflexivity. }
  rewrite E. destruct t as [s|s|i nm cl ch]; try exact IH.
  destruct (p nm); [reflexivity | exact IH].
Qed.

Lemma first_element_In p l t : first_element p l = Some t -> In t l.
Proof. intros F. apply (find_some _ _ F). Qed.

(** A root of the forest is what its identity refers to. *)
Lemma find_in_root i name cls ch f :
  NoDup (flat_map ids f) ->
  In (Element i name cls ch) f ->
  find_in i f = Some (Element i name cls ch).
Proof.
  induction f as [|c r IH]; intros N I; [destruct I|].
  simpl in N. apply NoDup_app_inv in N as (_ & Nr & Dis). simpl.
  destruct I as [->|I].
  - rewrite find_node_element, Nat.eqb_refl. reflexivity.
  - specialize (IH Nr I). rewrite find_node_none; [exact IH|].
    intros J. exact (Dis _ J (find_in_In _ _ _ IH)).
Qed.

(** Assigning to an element other than the document element leaves
    [document.body]. *)
Lemma body_assign n v d name cls old :
  well_formed d ->
  lookup n d = Some (Element n name cls old) ->
  name <> "html"%string ->
  dom_body (assign n v d) = dom_body d.
Proof.
  intros W F Nh. unfold assign, dom_set_textContent. rewrite F.
  unfold dom_body. cbn [snd doc_children]. rewrite first_element_replace.
  destruct (first_element (fun _ => true) (doc_children d))
    as [[s|s|i nm cl ch]|] eqn:E; try reflexivity.
  cbn [option_map replace_children].
  destruct (Nat.eqb_spec i n) as [->|Ne].
  - assert (F' : lookup n d = Some (Element n nm cl ch)).
    { apply find_in_root; [exact W|]. apply in_or_app. left.
      apply (first_element_In _ _ _ E). }
    rewrite F in F'. injection F' as <- _ _.
    apply String.eqb_neq in Nh. rewrite Nh. reflexivity.
  - destruct (String.eqb nm "html"); [|reflexivity].
    rewrite first_element_replace.
    destruct (first_element _ ch) as [[s|s|b nb cb chb]|]; try reflexivity.
    simpl. destruct (Nat.eqb b n); reflexivity.
Qed.

Lemma forEach_dom_body l :
  forall d k c,
    well_formed d ->
    (forall n name cls old,
        In n l -> lookup n d = Some (Element n name cls old) ->
        name <> "html"%string) ->
    dom_body (dom (snd (forEach (map RNode l) callback k
                          {| dom := d; console := c |})))
    = dom_body d.
Proof.
  induction l as [|n post IH]; intros d k c W Hl; [reflexivity|].
  cbn [map forEach]. unfold bind. rewrite dom_visit.
  destruct (phrase_at d n) eqn:Hp.
  - destruct (phrase_at_found _ _ Hp) as (nm & cl & old & Fn).
    rewrite IH.
    + apply (body_assign _ _ _ _ _ _ W Fn). apply (Hl n nm cl old); simpl; auto.
    + apply assign_well_formed, W.
    + intros m name cls old' Im Fm.
      destruct (Nat.eq_dec m n) as [->|Ne].
      * rewrite (lookup_assign_same _ (str "Parameters") _ _ _ _ Fn) in Fm.
        injection Fm as <- _ _. apply (Hl n nm cl old); simpl; auto.
      * destruct (lookup m d) as [u|] eqn:Fd.
        -- rewrite (lookup_assign_other _ (str "Parameters") _ _ _ _ _ _
                      W Fn Ne Fd) in Fm.
           destruct (lookup_element _ _ _ Fd) as (a & b & e & ->).
           simpl in Fm. destruct (Nat.eqb_spec m n); [contradiction|].
           injection Fm as <- _ _. apply (Hl m a b e); simpl; auto.
        -- rewrite (lookup_assign_none _ (str "Parameters") _ _ W Fd) in Fm.
           discriminate.
  - apply IH; [exact W|]. intros m name cls old Im. apply Hl. simpl; auto.
Qed.

Lemma heading_name d n name cls ch :
  well_formed d -> In n (headings_of d) ->
  lookup n d = Some (Element n name cls ch) -> name = "h4"%string.
Proof.
  intros W I F. rewrite (headings_found _ _ I) in F.
  unfold well_formed, objects in W. rewrite flat_map_app in W.
  apply NoDup_app_inv in W as (W & _ & _).
  assert (M : matches heading_selector (Element n name cls ch) = true).
  { apply (select_matches_forest heading_selector n (doc_children d));
      [|exact W|exact I|exact F].
    apply Forall_forall. intros t _. apply select_matches. }
  simpl in M. apply andb_true_iff in M as [M _].
  apply String.eqb_eq in M. exact M.
Qed.

(** X3: a pass over a well-formed document leaves [document.body] the
    element it was (or absent as it was): the body the observer was
    attached to is still the body of the document after every pass,
    and a body found by the 100ms check is not one the pass removed. *)
Theorem pass_keeps_body (w : world document) :
  well_formed (dom w) ->
  host_body (dom (pass_result w)) = host_body (dom w).
Proof.
  intros W. destruct w as [d c]. cbn [dom] in *.
  destruct (forEach_dom (headings_of d) d 0 c W (headings_NoDup d W)
              (headings_ordered d W)) as (d' & E & _).
  pose proof (forEach_dom_body (headings_of d) d 0 c W) as B.
  rewrite E in B. cbn [snd dom] in B.
  assert (R : dom (pass_result {| dom := d; console := c |}) = d').
  { unfold pass_result, replaceQueryParameters, try_catch, scan_and_replace,
      bind, querySelectorAll.
    cbn [dom host_querySelectorAll document_Host]. unfold dom_querySelectorAll.
    rewrite parse_heading_selector. fold (headings_of d). rewrite E.
    reflexivity. }
  rewrite R. cbn [host_body document_Host]. apply B.
  intros n name cls old I F. rewrite (heading_name d n name cls old W I F).
  discriminate.
Qed.

Lemma pass_keeps_body_witness :
  host_body (dom (pass_result (on_load with_body))) = RNode 2.
Proof.
  assert (W : well_formed (dom (on_load with_body)))
    by (unfold well_formed; concrete_NoDup).
  exact (pass_keeps_body (on_load with_body) W).
Defined.

(* ================================================================= *)
(** ** Which texts the callback rewrites *)

Lemma trimStart_split (s : jsstring) :
  exists a, s = a ++ trimStart s /\ white_space_only a = true.
Proof.
  induction s as [|c s (a & E & Wa)]; [exists []; auto|]. simpl.
  destruct (is_white_space c) eqn:Wc.
  - exists (c :: a). simpl. rewrite Wc, Wa. split; [f_equal; exact E | reflexivity].
  - exists []. auto.
Qed.

Lemma trimStart_skip (a s : jsstring) :
  white_space_only a = true -> trimStart (a ++ s) = trimStart s.
Proof.
  induction a as [|c a IH]; simpl; [reflexivity|].
  intros Wa. apply andb_true_iff in Wa as [Wc Wa]. rewrite Wc. auto.
Qed.

Lemma white_space_only_rev (a : jsstring) :
  white_space_only (rev a) = white_space_only a.
Proof.
  unfold white_space_only. induction a as [|c a IH]; [reflexivity|].
  simpl. rewrite forallb_app, IH. simpl. rewrite andb_true_r. apply andb_comm.
Qed.

Lemma trimEnd_split (s : jsstring) :
  exists b, s = trimEnd s ++ b /\ white_space_only b = true.
Proof.
  unfold trimEnd. destruct (trimStart_split (rev s)) as (a & E & Wa).
  exists (rev a). split; [|rewrite white_space_only_rev; exact Wa].
  rewrite <- rev_app_distr, <- E, rev_involutive. reflexivity.
Qed.

(** The texts that trim to the phrase: the phrase with white space
    before and after, and nothing else. *)
Lemma trims_to_phrase (s : jsstring) :
  trim s = str "Query Parameters"
  <-> exists a b,
        s = a ++ str "Query Parameters" ++ b
        /\ white_space_only a = true /\ white_space_only b = true.
Proof.
  split.
  - intros E. unfold trim in E.
    destruct (trimStart_split s) as (a & Ea & Wa).
    destruct (trimEnd_split (trimStart s)) as (b & Eb & Wb).
    exists a, b. rewrite E in Eb. rewrite <- Eb. auto.
  - intros (a & b & -> & Wa & Wb). unfold trim.
    rewrite (trimStart_skip a _ Wa).
    change (trimStart (str "Query Parameters" ++ b))
      with (str "Query Parameters" ++ b).
    unfold trimEnd. rewrite rev_app_distr, trimStart_skip
      by (rewrite white_space_only_rev; exact Wb).
    reflexivity.
Qed.

Section CallbackShape.
Context {D : Type} `{Host D}.

(** X6: for any host, the callback assigns to a node exactly when its
    text is the phrase with nothing but white space around it: then it
    assigns "Parameters" and counts one more (or passes on what the
    assignment threw); for every other text it leaves state and count
    as they are. *)
Theorem callback_rewrites_padded_phrase (n k : nat) (w : world D)
  (s : jsstring) :
  host_textContent n (dom w) = VString s ->
  ((exists a b,
       s = a ++ str "Query Parameters" ++ b
       /\ white_space_only a = true /\ white_space_only b = true) ->
   callback (RNode n) k w
   = (match fst (host_set_textContent n (str "Parameters") (dom w)) with
      | Normal _ => Normal (S k)
      | Throw e => Throw e
      end,
      {| dom := snd (host_set_textContent n (str "Parameters") (dom w));
         console := console w |}))
  /\ (~ (exists a b,
            s = a ++ str "Query Parameters" ++ b
            /\ white_space_only a = true /\ white_space_only b = true) ->
      callback (RNode n) k w = (Normal k, w)).
Proof.
  intros Ht. rewrite callback_visit. unfold visit. rewrite Ht. split.
  - intros Sh. apply trims_to_phrase in Sh. rewrite Sh, jsstring_eqb_refl.
    destruct (host_set_textContent _ _ _) as [[[]|e] d]; reflexivity.
  - intros Sh. destruct (jsstring_eqb _ _) eqn:E; [|reflexivity].
    exfalso. apply Sh, trims_to_phrase, jsstring_eqb_eq, E.
Qed.

End CallbackShape.

Lemma callback_rewrites_padded_phrase_witness :
  callback (RNode 2) 0 (on_load near_misses)
  = (Normal 1, on_load (assign 2 (str "Parameters") near_misses)).
Proof.
  assert (Ht : host_textContent 2 (dom (on_load near_misses))
               = VString (str "Query Parameters ")) by reflexivity.
  apply (proj1 (callback_rewrites_padded_phrase 2 0 (on_load near_misses)
                  (str "Query Parameters ") Ht)).
  exists [], (str " "). repeat split.
Defined.

(* ================================================================= *)
(** ** Bounds on what the page does *)

Lemma filter_filter_le {A} (f g : A -> bool) (l : list A) :
  List.length (filter f (filter g l)) <= List.length (filter f l).
Proof.
  induction l as [|a l IH]; simpl; [lia|].
  destruct (g a); simpl; destruct (f a); simpl; lia.
Qed.

Lemma filter_filter_lt {A} (f g : A -> bool) (l : list A) (t : A) :
  In t l -> f t = true -> g t = false ->
  List.length (filter f (filter g l)) < List.length (filter f l).
Proof.
  induction l as [|a l IH]; intros I Ft Gt; [destruct I|].
  destruct I as [->|I]; simpl.
  - rewrite Gt, Ft. simpl. pose proof (filter_filter_le f g l). lia.
  - specialize (IH I Ft Gt). destruct (g a); simpl; destruct (f a); simpl; lia.
Qed.

Section PageBounds.
Context {D : Type} `{Host D}.

Lemma run_pass_firings (p q : page D) (es : list event) :
  run p es q -> pass_firings es <= List.length (pass_timers (timers p)).
Proof.
  induction 1 as [p | p e q es r S R IH]; [simpl; lia|].
  pose proof (step_timers _ _ _ S) as T. unfold pass_timers in *.
  destruct S as [p t I | p t ty | p o I | p d]; simpl;
    try (rewrite T in IH; exact IH).
  rewrite T in IH. destruct (invokes_pass (timer_handler t)) eqn:Ip.
  - assert (G : negb (Nat.eqb (timer_id t) (timer_id t)) = false)
      by (rewrite Nat.eqb_refl; reflexivity).
    pose proof (filter_filter_lt
                  (fun x => invokes_pass (timer_handler x))
                  (fun x => negb (Nat.eqb (timer_id x) (timer_id t)))
                  (timers p) t I Ip G) as Lt.
    lia.
  - pose proof (filter_filter_le
                  (fun x => invokes_pass (timer_handler x))
                  (fun x => negb (Nat.eqb (timer_id x) (timer_id t)))
                  (timers p)). lia.
Qed.

(** X4: the retries are bounded. In every run of the page after the
    script, whatever else happens, at most five of the events are
    timers that call the pass; every further pass comes from a
    dispatched event or from the observer. *)
Theorem retries_are_bounded (w : world D) (mo : bool) (es : list event)
  (q : page D) :
  run (loaded w mo) es q -> pass_firings es <= 5.
Proof.
  intros R. apply run_pass_firings in R.
  assert (E : pass_timers (timers (loaded w mo)) = five_timers).
  { rewrite loaded_eq. cbv zeta. cbn [timers]. unfold pass_timers.
    rewrite filter_app.
    replace (filter _ five_timers) with five_timers by reflexivity.
    destruct mo; [|apply app_nil_r].
    destruct (host_body _); try apply app_nil_r; reflexivity. }
  rewrite E in R. exact R.
Qed.

Lemma pass_handler_observations (h : handler) (p : page D) :
  invokes_pass h = true -> observations (run_handler h p) = observations p.
Proof. destruct h; try discriminate; reflexivity. Qed.

Lemma fold_pass_handlers_observations (ls : list listener) (p : page D) :
  Forall (fun l => invokes_pass (listener_handler l) = true) ls ->
  observations (fold_left (fun q l => run_handler (listener_handler l) q) ls p)
  = observations p.
Proof.
  revert p; induction ls as [|l ls IH]; intros p F; [reflexivity|].
  apply Forall_cons_iff in F as [Fl F]. simpl.
  rewrite (IH _ F). apply pass_handler_observations, Fl.
Qed.

Lemma step_observes_once (p q : page D) (e : event) :
  step p e q -> observes_once p -> observes_once q.
Proof.
  intros S (Hn & Hl & Ho). pose proof (step_timers _ _ _ S) as T.
  pose proof (step_listeners _ _ _ S) as L. unfold observes_once.
  rewrite L. split; [|split; [exact Hl|]].
  - rewrite T. unfold body_checks in *.
    destruct S as [p t I | p t ty | p o I | p d].
    + destruct (invokes_pass (timer_handler t)) eqn:Ip.
      * rewrite (pass_handler_observations _ _ Ip). cbn [cancel_timer observations].
        pose proof (filter_filter_le
                      (fun x => negb (invokes_pass (timer_handler x)))
                      (fun x => negb (Nat.eqb (timer_id x) (timer_id t)))
                      (timers p)). lia.
      * assert (G : negb (Nat.eqb (timer_id t) (timer_id t)) = false)
          by (rewrite Nat.eqb_refl; reflexivity).
        assert (F : negb (invokes_pass (timer_handler t)) = true)
          by (rewrite Ip; reflexivity).
        assert (Lt := filter_filter_lt
                        (fun x => negb (invokes_pass (timer_handler x)))
                        (fun x => negb (Nat.eqb (timer_id x) (timer_id t)))
                        (timers p) t I F G).
        destruct (timer_handler t); try discriminate.
        cbn [run_handler]. unfold observe_when_body.
        destruct (host_body _);
          cbn [observe cancel_timer observations]; try rewrite length_app;
          simpl; lia.
    + unfold dispatch. rewrite fold_pass_handlers_observations; [exact Hn|].
      apply Forall_forall. intros l Il. apply filter_In in Il as [Il _].
      rewrite Forall_forall in Hl. auto.
    + rewrite pass_handler_observations; [exact Hn|].
      rewrite Forall_forall in Ho. auto.
    + exact Hn.
  - destruct S as [p t I | p t ty | p o I | p d].
    + destruct (timer_handler t) eqn:Eh; cbn [run_handler]; try exact Ho.
      unfold observe_when_body.
      destruct (host_body _); cbn [observe cancel_timer observations];
        try exact Ho.
      apply Forall_app. split; [exact Ho | repeat constructor].
    + unfold dispatch. rewrite fold_pass_handlers_observations; [exact Ho|].
      apply Forall_forall. intros l Il. apply filter_In in Il as [Il _].
      rewrite Forall_forall in Hl. auto.
    + rewrite pass_handler_observations; [exact Ho|].
      rewrite Forall_forall in Ho. auto.
    + exact Ho.
Qed.

Lemma loaded_observes_once (w : world D) (mo : bool) :
  observes_once (loaded w mo).
Proof.
  rewrite loaded_eq. cbv zeta. unfold observes_once, body_checks.
  cbn [observations timers listeners]. rewrite filter_app.
  replace (filter _ five_timers) with (@nil timer) by reflexivity.
  split; [|split].
  - destruct mo; [|simpl; lia]. destruct (host_body _); simpl; lia.
  - destruct (String.eqb _ _); repeat constructor.
  - destruct mo; [|constructor]. destruct (host_body _); repeat constructor.
Qed.

(** X5: the page never holds more than one observation. In every run
    after the script the body is observed at most once, so a batch of
    mutations runs the pass once and not once per attempt to attach. *)
Theorem observes_at_most_once (w : world D) (mo : bool) (es : list event)
  (q : page D) :
  run (loaded w mo) es q -> List.length (observations q) <= 1.
Proof.
  intros R.
  assert (J : observes_once q).
  { pose proof (loaded_observes_once w mo) as J0. revert J0.
    induction R as [p | p e q es r S R IH]; [auto|].
    intros J0. apply IH, (step_observes_once _ _ _ S J0). }
  destruct J as (Hn & _). lia.
Qed.

(** X7: what the two events do on a page the script has set up, at any
    later time. [load] on the window runs the pass once.
    [DOMContentLoaded] on the document runs it once when the script
    found the document loading, and does nothing when the script ran
    the pass itself. The same event types on the other target run
    nothing. *)
Theorem events_run_pass_once (w : world D) (mo : bool) (es : list event)
  (q : page D) :
  run (loaded w mo) es q ->
  dispatch TWindow "load" q = call_replaceQueryParameters q
  /\ dispatch TDocument "DOMContentLoaded" q
     = (if String.eqb (host_readyState (dom w)) "loading"
        then call_replaceQueryParameters q else q)
  /\ dispatch TDocument "load" q = q
  /\ dispatch TWindow "DOMContentLoaded" q = q.
Proof.
  intros R. apply run_listeners in R. unfold dispatch. rewrite R.
  rewrite loaded_eq. cbv zeta. cbn [listeners].
  destruct (String.eqb _ _); repeat split; reflexivity.
Qed.

End PageBounds.

Lemma retries_are_bounded_witness :
  pass_firings [Fired (retry 0 100); Dispatched TWindow "load";
                Fired (retry 3 1000)] <= 5.
Proof.
  eapply (retries_are_bounded (on_load (still_loading three_headings)) true).
  eapply run_cons; [apply step_timer; vm_compute; auto|].
  eapply run_cons; [apply step_dispatch|].
  eapply run_cons; [apply step_timer; vm_compute; auto 10|].
  apply run_nil.
Defined.

Lemma observes_at_most_once_witness :
  exists q,
    run (loaded (on_load no_body) true)
      [Mutated; Fired body_check; Dispatched TWindow "load"] q
    /\ List.length (observations q) <= 1.
Proof.
  eexists. split.
  - eapply run_cons; [apply (step_mutate _ with_body)|].
    eapply run_cons; [apply step_timer; vm_compute; auto 10|].
    eapply run_cons; [apply step_dispatch|].
    apply run_nil.
  - eapply (observes_at_most_once (on_load no_body) true).
    eapply run_cons; [apply (step_mutate _ with_body)|].
    eapply run_cons; [apply step_timer; vm_compute; auto 10|].
    eapply run_cons; [apply step_dispatch|].
    apply run_nil.
Defined.

Lemma events_run_pass_once_witness :
  dispatch TWindow "load" page_one = call_replaceQueryParameters page_one
  /\ dispatch TDocument "DOMContentLoaded" page_one
     = call_replaceQueryParameters page_one.
Proof.
  pose proof (events_run_pass_once (on_load (still_loading three_headings))
                true [] page_one (run_nil _)) as (A & B & _).
  split; [exact A | exact B].
Defined.

(* ================================================================= *)
(** ** The console *)

Section ConsoleGrowth.
Context {D : Type} `{Host D}.

Lemma pass_record_shape (w : world D) :
  exists r,
    console (pass_result w) = console w ++ [r]
    /\ ((exists n, r = count_record n) \/ (exists e, r = error_record e)).
Proof.
  unfold pass_result, replaceQueryParameters, try_catch.
  destruct (scan_and_replace w) as [[[]|e] w'] eqn:E.
  - destruct (scan_and_replace_normal _ _ _ E) as (l & k & w1 & _ & _ & ->).
    exists (count_record k). split; [reflexivity | left; eauto].
  - apply scan_and_replace_throw in E. unfold console_error, console_emit.
    cbn [snd console]. rewrite E.
    exists (error_record e). split; [reflexivity | right; eauto].
Qed.

(** X9: the console is only added to, one record per pass. For any
    host, [k] passes in a row leave the records that were there and
    add exactly [k], each of them a count record or an error record. *)
Theorem console_grows_by_one (k : nat) (w : world D) :
  exists rs,
    console (passes k w) = console w ++ rs
    /\ List.length rs = k
    /\ Forall (fun r => (exists n, r = count_record n)
                        \/ (exists e, r = error_record e)) rs.
Proof.
  revert w; induction k as [|k IH]; intros w.
  - exists []. simpl. rewrite app_nil_r. repeat split. constructor.
  - destruct (pass_record_shape w) as (r & E & Sh).
    destruct (IH (pass_result w)) as (rs & Ers & Len & All).
    exists (r :: rs). simpl. rewrite Ers, E, <- app_assoc. repeat split.
    + f_equal. exact Len.
    + constructor; assumption.
Qed.

End ConsoleGrowth.
